(** * near-explorer backend: synchronisation engine and telemetry glue

    A shallow embedding of [backend/src/index.js] (the block indexer) and of
    the HTTP telemetry endpoint, together with the properties that the
    specification states about them.

    Conventions of the embedding:
    - JavaScript numbers that hold block heights and queue sizes are integers
      far below 2^53 and are modelled as [Z]; the block timestamp is a
      nanosecond count around 10^18, beyond the exact range of a double, and
      is modelled as an IEEE-754 binary64 value ([spec_float]).
    - A slot that may hold [undefined] has type [js A].
    - A promise is represented by the way it settles (or by [Pending]).
    - Code that touches the database, the console or the event loop is
      written in a state-and-exception monad over [World]. *)

From Stdlib Require Import ZArith Lia List Bool.
From Stdlib Require Import Floats.SpecFloat.
From stdpp Require Import base numbers list strings pretty gmap.

Open Scope Z_scope.

(* ===================================================================== *)
(** * JavaScript numbers                                                  *)
(* ===================================================================== *)

Module Number.

(** A JavaScript number is a binary64 floating point value. *)
Definition number := spec_float.

Definition prec : Z := 53.
Definition emax : Z := 1024.

(** The number denoted by an integer literal (round to nearest, ties to
    even), as [JSON.parse] and the JavaScript lexer produce it. *)
Definition of_Z (z : Z) : number := binary_normalize prec emax z 0 false.

(** The operator [/]. *)
Definition div (x y : number) : number := SFdiv prec emax x y.

Definition ltb (x y : number) : bool := SFltb x y.
Definition leb (x y : number) : bool := SFleb x y.
Definition abs (x : number) : number := SFabs x.

(** The integral part of a finite number, rounded towards zero. *)
Definition truncate (x : number) : option Z :=
  match x with
  | S754_zero _ => Some 0
  | S754_finite s m e =>
      let a := match e with
               | Zneg p => Z.pos m / 2 ^ Z.pos p
               | _ => Z.pos m * 2 ^ e
               end in
      Some (if s then - a else a)
  | S754_infinity _ | S754_nan => None
  end.

(** The integer a number holds, when it holds one exactly. *)
Definition to_Z_exact (x : number) : option Z :=
  match truncate x with
  | Some z => if SFeqb (of_Z z) x then Some z else None
  | None => None
  end.

(** What [parseInt] returns. *)
Inductive parsed :=
| PInt (z : Z)     (* an integer *)
| PNaN             (* NaN *)
| PScientific.     (* the argument prints in exponent notation; see below *)

(** [parseInt(x)] for a number [x]: the argument is first converted to a
    string, then the longest prefix that is an integer literal is read.
    [NaN] and the infinities print as words and parse to [NaN].  Zero and
    every finite [x] with [1e-6 <= |x| < 1e21] print in positional notation
    (the two limits are themselves doubles that print as [0.000001] and
    [1e+21]), so the digits before the decimal point are read: [x]
    truncated towards zero.  Outside that range [x] prints as [d.ddde+N]
    and [parseInt] reads the leading digit of the shortest decimal that
    round-trips; this development does not compute that decimal and
    reports [PScientific] instead.  The quotient of a nanosecond count
    below 10^27 by 1000000 never gets there. *)
Definition parseInt (x : number) : parsed :=
  match truncate x with
  | None => PNaN
  | Some z =>
      match x with
      | S754_zero _ => PInt 0
      | _ =>
          if leb (div (of_Z 1) (of_Z 1000000)) (abs x)
             && ltb (abs x) (of_Z (10 ^ 21))
          then PInt z
          else PScientific
      end
  end.

End Number.

(* ===================================================================== *)
(** * Values, promises and the [Result] envelope                          *)
(* ===================================================================== *)

(** A JavaScript slot of static type [A] that may also hold [undefined]. *)
Inductive js (A : Type) : Type :=
| Undef
| Val (a : A).
Arguments Undef {A}.
Arguments Val {A} a.

Definition is_undefined {A} (x : js A) : bool :=
  match x with Undef => true | Val _ => false end.

(** Strict equality [===] on slots of a type with decidable equality. *)
#[global] Instance js_eq_dec {A} `{EqDecision A} : EqDecision (js A).
Proof. solve_decision. Defined.

(** The way a promise settles.  The fulfilment value and the rejection
    reason are arbitrary JavaScript values, [undefined] included
    ([Promise.reject()] rejects with [undefined]). *)
Inductive Outcome (V E : Type) : Type :=
| Fulfilled (v : js V)
| Rejected (e : js E).
Arguments Fulfilled {V E} v.
Arguments Rejected {V E} e.

(** A promise either never settles or settles in one way. *)
Inductive Promise (V E : Type) : Type :=
| Pending
| Settled (o : Outcome V E).
Arguments Pending {V E}.
Arguments Settled {V E} o.

(** [p.then(f)] and [p.catch(f)] for handlers that do not throw and that
    update a captured object of type [S]. *)
Definition then_ {A B E S} (p : Promise A E) (onFulfilled : js A -> S -> S * js B)
    (s : S) : S * Promise B E :=
  match p with
  | Pending => (s, Pending)
  | Settled (Fulfilled v) =>
      let '(s', b) := onFulfilled v s in (s', Settled (Fulfilled b))
  | Settled (Rejected e) => (s, Settled (Rejected e))
  end.

Definition catch_ {A E E' S} (p : Promise A E) (onRejected : js E -> S -> S * js A)
    (s : S) : S * Promise A E' :=
  match p with
  | Pending => (s, Pending)
  | Settled (Fulfilled v) => (s, Settled (Fulfilled v))
  | Settled (Rejected e) =>
      let '(s', a) := onRejected e s in (s', Settled (Fulfilled a))
  end.

(** [class Result]: the method meant to be the constructor is spelled
    [contructor], so [new Result()] creates an object without fields; a field
    that was never assigned reads as [undefined]. *)
Record Result (V E : Type) : Type := mkResult {
  value : js V;
  error : js E
}.
Arguments mkResult {V E}.
Arguments value {V E}.
Arguments error {V E}.

Definition new_Result {V E} : Result V E := mkResult Undef Undef.

(** [isError() { return typeof this.error !== "undefined"; }] *)
Definition isError {V E} (r : Result V E) : bool := negb (is_undefined (error r)).

(** [promiseResult(promise)]: the executor chains three handlers on
    [promise]; the first two assign a field of [payload], the last one calls
    [resolve(payload)].  Nothing ever calls a [reject]. *)
Definition promiseResult {V E E'} (promise : Promise V E)
  : Promise (Result V E) E' :=
  let payload := new_Result in
  let '(payload, p1) :=
    then_ (B := unit) promise
      (fun result payload => (mkResult result (error payload), Undef)) payload in
  let '(payload, p2) :=
    catch_ (E' := Empty_set) p1
      (fun error payload => (mkResult (value payload) error, Undef)) payload in
  match p2 with
  | Settled (Fulfilled _) => Settled (Fulfilled (Val payload))
  | Pending | Settled (Rejected _) => Pending
  end.

(** The envelope a request promise resolves to.  The RPC client gives every
    call a settlement (a response, an error or a timeout), so the promise
    built by [promiseResult] is resolved by the time it is awaited; the
    other cases of the match are not reachable from a settled call. *)
Definition resolved {V E E'} (p : Promise (Result V E) E') : Result V E :=
  match p with
  | Settled (Fulfilled (Val r)) => r
  | _ => new_Result
  end.

(* ===================================================================== *)
(** * Data received from the chain RPC                                    *)
(* ===================================================================== *)

(** A hash arrives either as a base58 string or as an array of bytes. *)
Inductive HashInput :=
| HashString (s : string)
| HashBytes (bytes : list Z).

Module Header.
Record t := mk {
    hash : HashInput;
    height : Z;
    prev_hash : HashInput;
    timestamp : Number.number;      (* nanoseconds *)
    total_weight_num : Z
  }.
End Header.

(** The payload stored under the single key of a transaction body. *)
Record TxArgs := mkTxArgs {
  originator : string;
  payload : string
}.

Module Tx.
Record t := mk {
    hash : HashInput;
    body : list (string * TxArgs)   (* own enumerable keys, in order *)
  }.
End Tx.

Record BlockInfo := mkBlockInfo {
  header : Header.t;
  transactions : list Tx.t
}.

(** The error object of a failed RPC call; [type] is ["system"] for
    transport failures. *)
Record RpcError := mkRpcError {
  err_type : js string;
  err_message : string
}.

(** A telemetry report. *)
Record NodeInfo := mkNodeInfo {
  node_id : string;
  account_id : string;
  ip_address : string;
  latest_block_height : Z
}.

(* ===================================================================== *)
(** * The relational store                                                *)
(* ===================================================================== *)

Module Block.
Record row := mk {
    hash : string;
    height : Z;
    prevHash : string;
    timestamp : Number.parsed;      (* milliseconds *)
    weight : Z;
    authorId : string;
    listOfApprovals : string
  }.
End Block.

Module Chunk.
Record row := mk {
    hash : string;
    blockHash : string;
    shardId : string;
    authorId : string
  }.
End Chunk.

Module Transaction.
Record row := mk {
    hash : string;
    originator : string;
    destination : string;
    kind : string;
    args : TxArgs;
    parentHash : option string;
    chunkHash : string;
    status : string;
    logs : string
  }.
End Transaction.

Module Node.
Record row := mk {
    nodeId : string;
    moniker : string;
    accountId : string;
    ipAddress : string;
    lastSeen : Z;
    lastHeight : Z
  }.
End Node.

(** Modelled from the spec: the tables of [../models] (not part of the
    sources at hand).  Block, Chunk and Transaction rows have the primary key
    [hash]; Node rows have the primary key [node_id], which the finite map
    captures. *)
Record Store := mkStore {
  blocks : list Block.row;
  chunks : list Chunk.row;
  transactions_table : list Transaction.row;
  nodes : gmap string Node.row
}.

Definition empty_store : Store := mkStore [] [] [] ∅.

(* ===================================================================== *)
(** * The world the backend runs in                                       *)
(* ===================================================================== *)

Inductive Exn :=
| TypeError               (* a property of [undefined] was read *)
| DatabaseError           (* the database failed to run a statement *)
| UniqueConstraintError.  (* a primary key is already taken *)

Inductive LogEntry :=
| LogSyncing (top bottom : Z)
| LogSystemError (blockHeight : Z) (message : string)
| WarnFetchFailed (blockHeight : Z) (error : RpcError)
| WarnSaveFailed (error : Exn).

(** [detached] holds the statements whose promise nobody keeps: they have
    been handed to the ORM but run at some later turn of the event loop.
    [statements] counts the write statements issued so far. *)
Record World := mkWorld {
  db : Store;
  console : list LogEntry;
  detached : list (list Transaction.row);
  statements : nat
}.

Definition empty_world : World := mkWorld empty_store [] [] 0%nat.

(** Everything the code reads from its surroundings: the three tunables
    (environment variables with defaults 1000, 10 and 10), the chain node,
    the base58 encoder, the ORM set-up and the failures of the database. *)
Record Env := mkEnv {
  syncFetchQueueSize : Z;
  syncSaveQueueSize : Z;
  bulkDbUpdateSize : Z;
  (** how the call [nearRpc.block(height)] settles *)
  nearRpc_block : Z -> Outcome BlockInfo RpcError;
  (** [bs58.encode(Buffer.from(input))] *)
  bs58_encode : list Z -> string;
  (** whether a statement issued inside the callback of a managed
      transaction joins that transaction although the code does not pass
      [{ transaction }] (Sequelize does this only when a CLS namespace is
      configured in [../models]) *)
  cls : bool;
  (** whether the n-th write statement fails in the database (lost
      connection, timeout, lock, ...) *)
  db_fault : nat -> bool
}.

Inductive outcome (A : Type) : Type :=
| Ok (a : A)
| Throw (e : Exn).
Arguments Ok {A} a.
Arguments Throw {A} e.

(** Computations that read and change the world and may throw. *)
Definition M (A : Type) : Type := World -> World * outcome A.

#[global] Instance M_ret : MRet M := fun A a w => (w, Ok a).
#[global] Instance M_bind : MBind M := fun A B f m w =>
  match m w with
  | (w', Ok a) => f a w'
  | (w', Throw e) => (w', Throw e)
  end.

Definition throw {A} (e : Exn) : M A := fun w => (w, Throw e).

(** [try { body } catch (error) { handler(error) }] *)
Definition try_catch {A} (body : M A) (handler : Exn -> M A) : M A := fun w =>
  match body w with
  | (w', Ok a) => (w', Ok a)
  | (w', Throw e) => handler e w'
  end.

Definition console_log (entry : LogEntry) : M unit := fun w =>
  (mkWorld (db w) (console w ++ [entry]) (detached w) (statements w), Ok ()).

(** Reading a property of a value that may be [undefined]. *)
Definition deref {A} (x : js A) : M A :=
  match x with
  | Undef => throw TypeError
  | Val a => mret a
  end.

Definition set_db (s : Store) (w : World) : World :=
  mkWorld s (console w) (detached w) (statements w).

(** Every write statement takes the next slot of the fault schedule. *)
Definition issue_statement (env : Env) : M unit := fun w =>
  let w' := mkWorld (db w) (console w) (detached w) (S (statements w)) in
  if db_fault env (statements w) then (w', Throw DatabaseError) else (w', Ok ()).

(** Modelled from the spec: [Model.bulkCreate(rows)] of [../models], a
    single multi-row INSERT: it adds all the rows or, when a primary key is
    taken twice, none. *)
Definition insert_rows {R} (key : R -> string)
    (table : Store -> list R) (set_table : list R -> Store -> Store)
    (rows : list R) : M unit := fun w =>
  if decide (NoDup (key <$> (table (db w) ++ rows)))
  then (set_db (set_table (table (db w) ++ rows) (db w)) w, Ok ())
  else (w, Throw UniqueConstraintError).

Definition bulkCreate {R} (env : Env) (key : R -> string)
    (table : Store -> list R) (set_table : list R -> Store -> Store)
    (rows : list R) : M unit :=
  issue_statement env ;; insert_rows key table set_table rows.

Definition Block_bulkCreate (env : Env) : list Block.row -> M unit :=
  bulkCreate env Block.hash blocks
    (fun t s => mkStore t (chunks s) (transactions_table s) (nodes s)).

Definition Chunk_bulkCreate (env : Env) : list Chunk.row -> M unit :=
  bulkCreate env Chunk.hash chunks
    (fun t s => mkStore (blocks s) t (transactions_table s) (nodes s)).

Definition Transaction_bulkCreate (env : Env) : list Transaction.row -> M unit :=
  bulkCreate env Transaction.hash transactions_table
    (fun t s => mkStore (blocks s) (chunks s) t (nodes s)).

(** A call of [models.Transaction.bulkCreate(rows)] whose promise is
    dropped: the statement is queued, the caller goes on at once. *)
Definition Transaction_bulkCreate_detached (rows : list Transaction.row) : M unit :=
  fun w => (mkWorld (db w) (console w) (detached w ++ [rows]) (statements w), Ok ()).

(** What the event loop does later with the queued statements: each one
    runs; a failure is an unhandled rejection, which nothing catches, logs
    or rolls back. *)
Definition run_detached (env : Env) (w : World) : World :=
  foldl (fun w rows => fst (Transaction_bulkCreate env rows w))
        (mkWorld (db w) (console w) [] (statements w)) (detached w).

(** [models.sequelize.transaction(async transaction => { ... })], a managed
    transaction: BEGIN, the callback, then COMMIT when the callback's
    promise fulfils, or ROLLBACK and rethrow when it rejects.  A rollback
    undoes the statements that joined the transaction. *)
Definition rollback (env : Env) (snapshot : Store) (w : World) : World :=
  if cls env then set_db snapshot w else w.

Definition sequelize_transaction (env : Env) (autoCallback : M unit) : M unit :=
  fun w =>
    let snapshot := db w in
    match autoCallback w with
    | (w1, Ok _) =>
        match issue_statement env w1 with
        | (w2, Ok _) => (w2, Ok ())                              (* COMMIT *)
        | (w2, Throw e) => (rollback env snapshot w2, Throw e)
        end
    | (w1, Throw e) => (rollback env snapshot w1, Throw e)      (* ROLLBACK *)
    end.

(* ===================================================================== *)
(** * Persisting a batch: [saveBlocks]                                    *)
(* ===================================================================== *)

Definition toBase58 (env : Env) (input : HashInput) : string :=
  match input with
  | HashString s => s
  | HashBytes bytes => bs58_encode env bytes
  end.

(** [timestamp: parseInt(blockInfo.header.timestamp / 1000000)] *)
Definition timestamp_ms (timestamp : Number.number) : Number.parsed :=
  Number.parseInt (Number.div timestamp (Number.of_Z 1000000)).

Definition block_row (env : Env) (blockInfo : BlockInfo) : Block.row :=
  {| Block.hash := toBase58 env (Header.hash (header blockInfo));
     Block.height := Header.height (header blockInfo);
     Block.prevHash := toBase58 env (Header.prev_hash (header blockInfo));
     Block.timestamp := timestamp_ms (Header.timestamp (header blockInfo));
     Block.weight := Header.total_weight_num (header blockInfo);
     Block.authorId := "n/a";
     Block.listOfApprovals := "n/a" |}.

Definition chunk_row (env : Env) (blockInfo : BlockInfo) : Chunk.row :=
  let hash := toBase58 env (Header.hash (header blockInfo)) in
  {| Chunk.hash := hash;
     Chunk.blockHash := hash;
     Chunk.shardId := "n/a";
     Chunk.authorId := "n/a" |}.

(** The row of one transaction.  [kind] is the first key of [tx.body] and
    [args] the value stored under it; with an empty body both are
    [undefined] and reading [args.originator] throws. *)
Definition transaction_row (env : Env) (blockInfo : BlockInfo) (tx : Tx.t)
  : M Transaction.row :=
  match Tx.body tx with
  | [] => throw TypeError
  | (kind, args) :: _ =>
      mret {| Transaction.hash := toBase58 env (Tx.hash tx);
              Transaction.originator := originator args;
              Transaction.destination := "n/a";
              Transaction.kind := kind;
              Transaction.args := args;
              Transaction.parentHash := None;
              Transaction.chunkHash := toBase58 env (Header.hash (header blockInfo));
              Transaction.status := "Completed";
              Transaction.logs := "" |}
  end.

(** The callback of the third [map]: it calls
    [models.Transaction.bulkCreate] and returns nothing, so the array given
    to [Promise.all] holds [undefined] and not the promise of the INSERT. *)
Definition save_transactions_of (env : Env) (blockInfo : BlockInfo) : M unit :=
  rows ← mapM (transaction_row env blockInfo) (transactions blockInfo);
  Transaction_bulkCreate_detached rows.

(** The body of the inner [try]. *)
Definition saveBlocks_body (env : Env) (blocksInfo : list (js BlockInfo)) : M unit :=
  rows ← mapM (fun blockInfo => b ← deref blockInfo; mret (block_row env b)) blocksInfo;
  Block_bulkCreate env rows;;
  rows ← mapM (fun blockInfo => b ← deref blockInfo; mret (chunk_row env b)) blocksInfo;
  Chunk_bulkCreate env rows;;
  bs ← mapM deref blocksInfo;
  mapM (save_transactions_of env)
       (filter (fun blockInfo => 0 < Z.of_nat (length (transactions blockInfo))) bs);;
  mret ().

Definition warn_save_failed (error : Exn) : M unit :=
  console_log (WarnSaveFailed error).

(** [saveBlocks(blocksInfo)]: the inner [try]/[catch] sits inside the
    transaction callback, the outer one around the transaction. *)
Definition saveBlocks (env : Env) (blocksInfo : list (js BlockInfo)) : M unit :=
  try_catch
    (sequelize_transaction env
       (try_catch (saveBlocks_body env blocksInfo) warn_save_failed))
    warn_save_failed.

(* ===================================================================== *)
(** * Harvesting a batch of requests: [saveBlocksFromRequests]            *)
(* ===================================================================== *)

(** A pending request: the height and the envelope its promise holds. *)
Definition Request : Type := Z * Result BlockInfo RpcError.

(** The callback of [flatMap]. *)
Definition harvest (request : Request) : M (list (js BlockInfo)) :=
  let '(blockHeight, blockResult) := request in
  if isError blockResult then
    error ← deref (error blockResult);
    (if decide (err_type error = Val "system")
     then console_log (LogSystemError blockHeight (err_message error))
     else console_log (WarnFetchFailed blockHeight error));;
    mret []
  else mret [value blockResult].

Definition saveBlocksFromRequests (env : Env) (requests : list Request) : M unit :=
  blocks ← mapM harvest requests;
  saveBlocks env (concat blocks).

(* ===================================================================== *)
(** * The fetch pipeline: [syncNearcoreBlocks]                            *)
(* ===================================================================== *)

(** The local variables of [syncNearcoreBlocks].  A promise held in [saves]
    is represented by the batch it persists.  [awaiting] is the promise the
    function is suspended on, [awaited] lists the batches whose promise has
    been awaited, oldest first. *)
Record Pipeline := mkPipeline {
  syncingBlockHeight : Z;
  requests : list Request;
  saves : list (list Request);
  awaiting : option (list Request);
  awaited : list (list Request)
}.

(** The number of requests the pipeline holds that no batch has taken. *)
Definition pending_requests (p : Pipeline) : Z := Z.of_nat (length (requests p)).

(** The number of persist batches that were started and not yet awaited to
    completion: those in [saves], and the one being awaited. *)
Definition in_flight_saves (p : Pipeline) : Z :=
  Z.of_nat (length (saves p)) + match awaiting p with Some _ => 1 | None => 0 end.

(** [[h, promiseResult(nearRpc.block(h))]] *)
Definition request (env : Env) (h : Z) : Request :=
  (h, resolved (E' := Empty_set) (promiseResult (Settled (nearRpc_block env h)))).

(** [requests.push([...]); --syncingBlockHeight;] *)
Definition push_request (env : Env) (p : Pipeline) : Pipeline :=
  mkPipeline (syncingBlockHeight p - 1)
             (requests p ++ [request env (syncingBlockHeight p)])
             (saves p) (awaiting p) (awaited p).

(** [array.splice(0, deleteCount)]: the removed prefix and what is left; a
    negative count removes nothing, a count beyond the length everything. *)
Definition splice0 {A} (deleteCount : Z) (l : list A) : list A * list A :=
  (take (Z.to_nat deleteCount) l, drop (Z.to_nat deleteCount) l).

(** [if (requests.length > syncFetchQueueSize)
       saves.push(saveBlocksFromRequests(requests.splice(0, bulkDbUpdateSize)));] *)
Definition detach_batch (env : Env) (p : Pipeline) : Pipeline :=
  if syncFetchQueueSize env <? Z.of_nat (length (requests p)) then
    let '(batch, rest) := splice0 (bulkDbUpdateSize env) (requests p) in
    mkPipeline (syncingBlockHeight p) rest (saves p ++ [batch])
               (awaiting p) (awaited p)
  else p.

(** [if (saves.length > syncSaveQueueSize) await saves.shift();]
    The first component is the pipeline while it is suspended (if it is),
    the second the pipeline when the statement is over. *)
Definition await_oldest_save (env : Env) (p : Pipeline) : list Pipeline * Pipeline :=
  if syncSaveQueueSize env <? Z.of_nat (length (saves p)) then
    match saves p with
    | [] => ([], p)
    | oldest :: rest =>
        ([mkPipeline (syncingBlockHeight p) (requests p) rest (Some oldest)
                     (awaited p)],
         mkPipeline (syncingBlockHeight p) (requests p) rest None
                    (awaited p ++ [oldest]))
    end
  else ([], p).

(** The [while (syncingBlockHeight >= bottomBlockHeight)] loop.  It returns
    the pipeline after every statement, in order, and the pipeline at the
    exit.  The height goes down by one in every turn, so [iterations] turns
    are all the loop can take when it starts with
    [syncingBlockHeight - bottomBlockHeight + 1 <= iterations]
    (see [sync_loop_exit]). *)
Fixpoint sync_loop (iterations : nat) (env : Env) (bottomBlockHeight : Z)
    (p : Pipeline) : list Pipeline * Pipeline :=
  match iterations with
  | O => ([], p)
  | S iterations =>
      if bottomBlockHeight <=? syncingBlockHeight p then
        let p1 := push_request env p in
        let p2 := detach_batch env p1 in
        let '(suspended, p3) := await_oldest_save env p2 in
        let '(trace, final) := sync_loop iterations env bottomBlockHeight p3 in
        (p1 :: p2 :: suspended ++ p3 :: trace, final)
      else ([], p)
  end.

(** [saves.push(saveBlocksFromRequests(requests));] *)
Definition flush (p : Pipeline) : Pipeline :=
  mkPipeline (syncingBlockHeight p) (requests p) (saves p ++ [requests p])
             (awaiting p) (awaited p).

Definition start (topBlockHeight : Z) : Pipeline :=
  mkPipeline topBlockHeight [] [] None [].

Definition loop_iterations (topBlockHeight bottomBlockHeight : Z) : nat :=
  Z.to_nat (topBlockHeight - bottomBlockHeight + 1).

(** The pipeline after every statement of one call, from the first [push]
    to the final [saves.push]. *)
Definition pipeline_trace (env : Env) (topBlockHeight bottomBlockHeight : Z)
  : list Pipeline :=
  if topBlockHeight <? bottomBlockHeight then []
  else
    let '(trace, final) :=
      sync_loop (loop_iterations topBlockHeight bottomBlockHeight) env
                bottomBlockHeight (start topBlockHeight) in
    trace ++ [flush final].

(** The pipeline at the end of every turn of the loop. *)
Fixpoint loop_ends (iterations : nat) (env : Env) (bottomBlockHeight : Z)
    (p : Pipeline) : list Pipeline :=
  match iterations with
  | O => []
  | S iterations =>
      if bottomBlockHeight <=? syncingBlockHeight p then
        let p3 := snd (await_oldest_save env (detach_batch env (push_request env p))) in
        p3 :: loop_ends iterations env bottomBlockHeight p3
      else []
  end.

(** All the batches one call persists, in the order their promises were
    created: the awaited ones, those still in [saves] at the exit of the
    loop, and the final one.  This is for a call that gets past its first
    test; with [topBlockHeight < bottomBlockHeight] the function returns
    there and makes no batch (see [syncNearcoreBlocks] below). *)
Definition batches (env : Env) (topBlockHeight bottomBlockHeight : Z)
  : list (list Request) :=
  let final :=
    flush (snd (sync_loop (loop_iterations topBlockHeight bottomBlockHeight) env
                          bottomBlockHeight (start topBlockHeight))) in
  awaited final ++ saves final.

(** [syncNearcoreBlocks(topBlockHeight, bottomBlockHeight)].  The batches
    run concurrently with the loop and with each other; their effects on the
    store are taken here in the order in which the function awaits them,
    which is the order of their creation. *)
Definition syncNearcoreBlocks (env : Env) (topBlockHeight bottomBlockHeight : Z)
  : M unit :=
  if topBlockHeight <? bottomBlockHeight then mret ()
  else
    console_log (LogSyncing topBlockHeight bottomBlockHeight);;
    mapM (saveBlocksFromRequests env) (batches env topBlockHeight bottomBlockHeight);;
    mret ().

(* ===================================================================== *)
(** * The gap-sync pass: [syncMissingNearcoreState]                       *)
(* ===================================================================== *)

(** [models.Block.findOne({ order: [["height", "DESC"]] })] and
    [models.Block.findOne({ order: ["height"] })]: a row of greatest
    (smallest) height, [null] on an empty table. *)
Fixpoint Block_findOne_highest (rows : list Block.row) : option Block.row :=
  match rows with
  | [] => None
  | r :: rows =>
      match Block_findOne_highest rows with
      | None => Some r
      | Some r' => if Block.height r' <? Block.height r then Some r else Some r'
      end
  end.

Fixpoint Block_findOne_lowest (rows : list Block.row) : option Block.row :=
  match rows with
  | [] => None
  | r :: rows =>
      match Block_findOne_lowest rows with
      | None => Some r
      | Some r' => if Block.height r <? Block.height r' then Some r else Some r'
      end
  end.

(** [models.Block.count({ where: { height: { between: [low, high] } } })] *)
Definition Block_count_between (lowHeight highHeight : Z) (rows : list Block.row) : Z :=
  Z.of_nat (length (filter (fun r => lowHeight <= Block.height r <= highHeight) rows)).

(** [Math.floor((lowHeight + highHeight) / 2)] *)
Definition midHeight (lowHeight highHeight : Z) : Z := (lowHeight + highHeight) / 2.

(** The recursive closure [syncMissingNearcoreBlocks].  Every nested call
    takes one unit of [fuel], the two calls of one frame get the same
    amount: the function returns with [fuel] exactly when its call stack
    never grows beyond [fuel] frames. *)
Fixpoint syncMissingNearcoreBlocks (fuel : nat) (env : Env)
    (lowHeight highHeight : Z) (w : World) : option (World * outcome unit) :=
  match fuel with
  | O => None
  | S fuel =>
      if highHeight <? lowHeight then Some (w, Ok ())
      else
        let syncedBlocksCount :=
          Block_count_between lowHeight highHeight (blocks (db w)) in
        if highHeight - lowHeight + 1 =? syncedBlocksCount then Some (w, Ok ())
        else if (highHeight - lowHeight <=? syncFetchQueueSize env)
                && (syncedBlocksCount =? 0)
        then Some (syncNearcoreBlocks env highHeight lowHeight w)
        else
          match syncMissingNearcoreBlocks fuel env lowHeight
                  (midHeight lowHeight highHeight) w with
          | Some (w', Ok _) =>
              syncMissingNearcoreBlocks fuel env
                (midHeight lowHeight highHeight + 1) highHeight w'
          | other => other
          end
  end.

Definition syncMissingNearcoreState (fuel : nat) (env : Env) (w : World)
  : option (World * outcome unit) :=
  match Block_findOne_highest (blocks (db w)) with
  | None => Some (w, Ok ())
  | Some latestSyncedBlock =>
      match Block_findOne_lowest (blocks (db w)) with
      | None => Some (w, Ok ())
      | Some oldestSyncedBlock =>
          syncMissingNearcoreBlocks fuel env
            (Block.height oldestSyncedBlock + 1)
            (Block.height latestSyncedBlock - 1) w
      end
  end.

(** ** The pass as the specification words it

    [lo = min stored height + 1], [hi = max stored height - 1]; nothing to
    do with fewer than two rows; then, on [[lo, hi]]: return when the count
    of stored heights equals [hi - lo + 1]; run the pipeline when
    [hi - lo <= FETCH_QUEUE] and the count is 0; otherwise split at
    [mid = floor((lo + hi) / 2)] and process [[lo, mid]], then
    [[mid + 1, hi]]. *)
Fixpoint spec_process_range (fuel : nat) (env : Env) (lo hi : Z) (w : World)
  : option (World * outcome unit) :=
  match fuel with
  | O => None
  | S fuel =>
      let count := Block_count_between lo hi (blocks (db w)) in
      if count =? hi - lo + 1 then Some (w, Ok ())
      else if (hi - lo <=? syncFetchQueueSize env) && (count =? 0)
      then Some (syncNearcoreBlocks env hi lo w)
      else
        let mid := (lo + hi) `div` 2 in
        match spec_process_range fuel env lo mid w with
        | Some (w', Ok _) => spec_process_range fuel env (mid + 1) hi w'
        | other => other
        end
  end.

Definition min_stored_height (rows : list Block.row) : Z :=
  foldr Z.min (default 0 (Block.height <$> head rows)) (Block.height <$> rows).

Definition max_stored_height (rows : list Block.row) : Z :=
  foldr Z.max (default 0 (Block.height <$> head rows)) (Block.height <$> rows).

Definition spec_gap_sync (fuel : nat) (env : Env) (w : World)
  : option (World * outcome unit) :=
  if Z.of_nat (length (blocks (db w))) <? 2 then Some (w, Ok ())
  else
    spec_process_range fuel env
      (min_stored_height (blocks (db w)) + 1)
      (max_stored_height (blocks (db w)) - 1) w.

(* ===================================================================== *)
(** * Telemetry                                                           *)
(* ===================================================================== *)

(** The row given to [models.Node.upsert]; [now] is [Date.now()]. *)
Definition node_row (now : Z) (nodeInfo : NodeInfo) : Node.row :=
  {| Node.nodeId := node_id nodeInfo;
     Node.moniker := account_id nodeInfo;
     Node.accountId := account_id nodeInfo;
     Node.ipAddress := ip_address nodeInfo;
     Node.lastSeen := now;
     Node.lastHeight := latest_block_height nodeInfo |}.

(** Modelled from the spec: [models.Node.upsert(row)] of [../models]
    inserts the row, or replaces the row that has the same primary key; it
    returns whether a row was created. *)
Definition store_node (row : Node.row) : M bool := fun w =>
  let s := db w in
  (set_db (mkStore (blocks s) (chunks s) (transactions_table s)
                   (<[Node.nodeId row := row]> (nodes s))) w,
   Ok (bool_decide (nodes s !! Node.nodeId row = None))).

Definition Node_upsert (env : Env) (row : Node.row) : M bool :=
  issue_statement env ;; store_node row.

(** [wampHandlers["node-telemetry"]] *)
Definition node_telemetry (env : Env) (now : Z) (nodeInfo : NodeInfo) : M bool :=
  Node_upsert env (node_row now nodeInfo).

(** ** The HTTP endpoint that forwards a report to the bus *)

(** A JSON value of a request body. *)
Inductive JsValue :=
| JUndefined
| JNull
| JBool (b : bool)
| JNumber (z : Z)
| JString (s : string).

(** What the handler reads from the request: three candidate addresses,
    the query string parameters, the [Host] header and the parsed body. *)
Record HttpRequest := mkHttpRequest {
  x_forwarded_for : js string;            (* req.headers["x-forwarded-for"] *)
  connection_remoteAddress : js string;   (* req.connection.remoteAddress *)
  socket_remoteAddress : js string;       (* req.socket.remoteAddress *)
  query : gmap string string;             (* req.query *)
  host : js string;                       (* req.headers.host *)
  body : gmap string JsValue              (* req.body *)
}.

(** Truthiness of a string slot: [undefined] and [""] are falsy. *)
Definition truthy (x : js string) : bool :=
  match x with
  | Undef => false
  | Val s => negb (bool_decide (s = ""))
  end.

(** The operator [||]. *)
Definition or_else (a b : js string) : js string := if truthy a then a else b.

Definition client_address (req : HttpRequest) : js string :=
  or_else (x_forwarded_for req)
          (or_else (connection_remoteAddress req) (socket_remoteAddress req)).

Definition to_JsValue (x : js string) : JsValue :=
  match x with Undef => JUndefined | Val s => JString s end.

(** [{ ...req.body, ip_address: ip_address }] *)
Definition telemetry_payload (req : HttpRequest) : gmap string JsValue :=
  <["ip_address" := to_JsValue (client_address req)]> (body req).

Section TelemetryEndpoint.

(** The imports of the endpoint, which are not part of the sources at hand:
    [getNearNetworkName(query, host)] of [libraries/config] and
    [getFetcher(networkName)] of [libraries/transport], which calls a
    procedure of the bus of that network and settles with its answer. *)
Variables (Network Timing Failure : Type).
Variable getNearNetworkName : gmap string string -> js string -> Failure + Network.
Variable getFetcher :
  Network -> string -> list (gmap string JsValue) -> Failure + Timing.

Inductive ResponseBody :=
| EmptyObject                   (* {} *)
| TimingObject (timing : Timing) (* { timing } *)
| ErrorBody (error : Failure).

Record HttpResponse := mkHttpResponse {
  status : Z;
  sent : ResponseBody
}.

(** The call of the bus procedure the handler makes, if it gets to it. *)
Record Forward := mkForward {
  network : Network;
  procedure : string;
  arguments : list (gmap string JsValue)
}.

(** [handler(req, res)]: the forward it issues and the response it sends. *)
Definition handler (req : HttpRequest) : option Forward * HttpResponse :=
  let ip_address := client_address req in
  match getNearNetworkName (query req) (host req) with
  | inl error => (None, mkHttpResponse 400 (ErrorBody error))
  | inr networkName =>
      let forward :=
        mkForward networkName "node-telemetry" [telemetry_payload req] in
      match getFetcher networkName "node-telemetry" [telemetry_payload req] with
      | inl error => (Some forward, mkHttpResponse 400 (ErrorBody error))
      | inr timing =>
          (Some forward,
           mkHttpResponse 200
             (if truthy (match query req !! "debug" with
                         | Some v => Val v
                         | None => Undef
                         end)
              then TimingObject timing else EmptyObject))
      end
  end.

End TelemetryEndpoint.

Arguments EmptyObject {Timing Failure}.
Arguments TimingObject {Timing Failure} timing.
Arguments ErrorBody {Timing Failure} error.
Arguments mkHttpResponse {Timing Failure} status sent.
Arguments status {Timing Failure} h.
Arguments sent {Timing Failure} h.
Arguments mkForward {Network} network procedure arguments.
Arguments handler {Network Timing Failure} getNearNetworkName getFetcher req.

(** ** Reports that arrive one after the other *)

(** The bus calls [wampHandlers["node-telemetry"]] once for every report;
    each call is a single statement, so the calls take effect one after the
    other, whatever their outcome.  A report comes with the reading of
    [Date.now()] at its call. *)
Definition deliver (env : Env) (reports : list (Z * NodeInfo)) (w : World) : World :=
  foldl (fun w report => fst (node_telemetry env (fst report) (snd report) w))
        w reports.

(** The same request with another body. *)
Definition with_body (req : HttpRequest) (b : gmap string JsValue) : HttpRequest :=
  {| x_forwarded_for := x_forwarded_for req;
     connection_remoteAddress := connection_remoteAddress req;
     socket_remoteAddress := socket_remoteAddress req;
     query := query req;
     host := host req;
     body := b |}.

(* ===================================================================== *)
(** * The passes of the synchroniser                                      *)
(* ===================================================================== *)

(** The reads of a pass ([models.Block.findOne]) are taken to succeed, as
    they are in the gap pass: a pass whose read is rejected ends there,
    with the store as it was. *)

(** The answer of [nearRpc.status()], as far as the passes read it: the
    field [sync_info.latest_block_height], of any JSON type.  A number is
    a block height, an integer as everywhere else. *)
Module SyncInfo.
Record t := mk { latest_block_height : JsValue }.
End SyncInfo.

Record NodeStatus := mkNodeStatus { sync_info : js SyncInfo.t }.

(** What a pass ends with when it does not return: an exception thrown in
    its body, or the rejection of a promise it awaits. *)
Inductive Crash :=
| Thrown (error : Exn)
| RejectedWith (error : js RpcError).

Inductive passed (A : Type) :=
| Returned (a : A)
| Crashed (error : Crash).
Arguments Returned {A} a.
Arguments Crashed {A} error.

(** The console lines of the passes themselves. *)
Inductive PassLine :=
| DebugLatestSynced (height : Z)
| DebugNoSyncedBlocks
| WarnLatestHeightUnknown (nodeStatus : NodeStatus)
| DebugOldestSynced (height : Z)
| WarnNewCrashed (error : Crash)
| WarnMissingCrashed (error : Crash)
| WarnOldCrashed (error : Crash).

(** The backend process during a pass: the world of the pipeline, and the
    lines the passes have printed, each with the number of lines the
    pipeline had printed before it. *)
Record Process := mkProcess {
  world : World;
  pass_console : list (nat * PassLine)
}.

Definition say (line : PassLine) (p : Process) : Process :=
  mkProcess (world p) (pass_console p ++ [(length (console (world p)), line)]).

(** An awaited computation of the pipeline, inside a pass. *)
Definition await {A} (m : M A) (p : Process) : Process * passed A :=
  let r := m (world p) in
  (mkProcess (fst r) (pass_console p),
   match snd r with
   | Ok a => Returned a
   | Throw e => Crashed (Thrown e)
   end).

(** [syncNewNearcoreState()]; [nearRpc_status] is what [nearRpc.status()]
    settles with. *)
Definition syncNewNearcoreState (env : Env)
    (nearRpc_status : Outcome NodeStatus RpcError) (p : Process)
  : Process * passed unit :=
  let latestSyncedBlock := Block_findOne_highest (blocks (db (world p))) in
  let latestSyncedBlockHeight :=
    match latestSyncedBlock with
    | Some b => Block.height b
    | None => 0
    end in
  let p :=
    match latestSyncedBlock with
    | Some b => say (DebugLatestSynced (Block.height b)) p
    | None => say DebugNoSyncedBlocks p
    end in
  match nearRpc_status with
  | Rejected error => (p, Crashed (RejectedWith error))
  | Fulfilled Undef => (p, Crashed (Thrown TypeError))
  | Fulfilled (Val nodeStatus) =>
      match sync_info nodeStatus with
      | Undef => (p, Crashed (Thrown TypeError))
      | Val info =>
          match SyncInfo.latest_block_height info with
          | JNumber latestBlockHeight =>
              await (syncNearcoreBlocks env latestBlockHeight
                       (latestSyncedBlockHeight + 1)) p
          | _ => (say (WarnLatestHeightUnknown nodeStatus) p, Returned ())
          end
      end
  end.

(** [syncOldNearcoreState()] *)
Definition syncOldNearcoreState (env : Env) (p : Process) : Process * passed unit :=
  let oldestSyncedBlock := Block_findOne_lowest (blocks (db (world p))) in
  let oldestSyncedBlockHeight :=
    match oldestSyncedBlock with
    | Some b => Block.height b
    | None => 0
    end in
  let p :=
    match oldestSyncedBlock with
    | Some b => say (DebugOldestSynced (Block.height b)) p
    | None => p
    end in
  await (syncNearcoreBlocks env (oldestSyncedBlockHeight - 1) 1) p.

(** [try { await pass; } catch (error) { console.warn(..., error); }] *)
Definition guarded (warn : Crash -> PassLine) (r : Process * passed unit) : Process :=
  match snd r with
  | Returned _ => fst r
  | Crashed error => say (warn error) (fst r)
  end.

(** The gap pass inside the process; [fuel] bounds its stack as before. *)
Definition await_missing (fuel : nat) (env : Env) (p : Process)
  : option (Process * passed unit) :=
  match syncMissingNearcoreState fuel env (world p) with
  | None => None
  | Some (w', o) =>
      Some (mkProcess w' (pass_console p),
            match o with
            | Ok a => Returned a
            | Throw e => Crashed (Thrown e)
            end)
  end.

(** [syncFullNearcoreState()] *)
Definition syncFullNearcoreState (fuel : nat) (env : Env)
    (nearRpc_status : Outcome NodeStatus RpcError) (p : Process) : option Process :=
  let p := guarded WarnNewCrashed (syncNewNearcoreState env nearRpc_status p) in
  match await_missing fuel env p with
  | None => None
  | Some r =>
      let p := guarded WarnMissingCrashed r in
      Some (guarded WarnOldCrashed (syncOldNearcoreState env p))
  end.

(* ===================================================================== *)
(** * The connection to the bus: [setupWamp]                              *)
(* ===================================================================== *)

(** The keys of [wampHandlers], in the order of their assignment, which is
    the order of [Object.entries]. *)
Definition wampHandlers : list string := ["node-telemetry"; "select"].

Definition uri_of (name : string) : string :=
  String.append "com.nearprotocol.explorer." name.

(** What [wamp.onopen] does, in order: a console line, the registrations
    the router accepted, and after a refusal the error line, [wamp.close()]
    and the timer that calls [wamp.open()] after [delay] ms. *)
Inductive WampEffect (E : Type) :=
| LogEstablished
| Registered (uri : string)
| LogRegisterFailed (uri : string) (error : E)
| Close
| ReopenAfter (delay : Z).
Arguments LogEstablished {E}.
Arguments Registered {E} uri.
Arguments LogRegisterFailed {E} uri error.
Arguments Close {E}.
Arguments ReopenAfter {E} delay.

(** The loop of [wamp.onopen]; [register uri] is the error with which
    [session.register(uri, handler)] rejects, if it does. *)
Fixpoint register_handlers {E} (register : string -> option E) (names : list string)
  : list (WampEffect E) :=
  match names with
  | [] => []
  | name :: names =>
      let uri := uri_of name in
      match register uri with
      | None => Registered uri :: register_handlers register names
      | Some error => [LogRegisterFailed uri error; Close; ReopenAfter 1000]
      end
  end.

Definition onopen {E} (register : string -> option E) : list (WampEffect E) :=
  LogEstablished :: register_handlers register wampHandlers.

(* ===================================================================== *)
(** * Vocabulary of the statements                                        *)
(* ===================================================================== *)

(** ** Batches of requests *)

(** The values a batch hands to [saveBlocks]: those of the envelopes that
    are not errors, in the order of the requests. *)
Definition fetched (requests : list Request) : list (js BlockInfo) :=
  (fun q => value (snd q)) <$> filter (fun q => isError (snd q) = false) requests.

(** The console lines of a batch: one for every envelope that is an error. *)
Definition failure_logs (requests : list Request) : list LogEntry :=
  omap (fun '(blockHeight, blockResult) =>
          match error blockResult with
          | Undef => None
          | Val e =>
              Some (if decide (err_type e = Val "system")
                    then LogSystemError blockHeight (err_message e)
                    else WarnFetchFailed blockHeight e)
          end) requests.

Definition log_all (entries : list LogEntry) (w : World) : World :=
  mkWorld (db w) (console w ++ entries) (detached w) (statements w).

(** The heights [h, h - 1, ...], [n] of them, and the heights of a call. *)
Fixpoint down_from (n : nat) (h : Z) : list Z :=
  match n with
  | O => []
  | S n => h :: down_from n (h - 1)
  end.

Definition descending (top bottom : Z) : list Z :=
  down_from (loop_iterations top bottom) top.

(** Every request a pipeline holds, oldest first, whether already handed to
    a batch or not. *)
Definition all_requests (p : Pipeline) : list Request :=
  concat (awaited p) ++ concat (saves p) ++ requests p.

(** ** Queue sizes *)

Definition within (fetchBound saveBound : Z) (p : Pipeline) : Prop :=
  pending_requests p <= fetchBound /\ in_flight_saves p <= saveBound.

(** The bounds by one more than the configured sizes. *)
Definition loosely_within (env : Env) : Pipeline -> Prop :=
  within (syncFetchQueueSize env + 1) (syncSaveQueueSize env + 1).

(** Between two turns of the loop: within the configured sizes, and not
    suspended. *)
Definition at_rest (env : Env) (p : Pipeline) : Prop :=
  within (syncFetchQueueSize env) (syncSaveQueueSize env) p /\ awaiting p = None.

(** ** Computations *)

(** A computation that returns normally from every world. *)
Definition total {A} (m : M A) : Prop := forall w, exists w' a, m w = (w', Ok a).

(** [w'] has the Block rows of [w] and, after them, rows that satisfy [P]. *)
Definition grows (P : Block.row -> Prop) (w w' : World) : Prop :=
  exists extra, blocks (db w') = blocks (db w) ++ extra /\ Forall P extra.

(** A computation that only adds Block rows satisfying [P] and whose
    results satisfy [Q]. *)
Definition adds_only {A} (P : Block.row -> Prop) (Q : A -> Prop) (m : M A) : Prop :=
  forall w, grows P w (fst (m w)) /\ forall a, snd (m w) = Ok a -> Q a.

(** A computation that leaves an observation [f] of the world as it was. *)
Definition keeps {A X} (f : World -> X) (m : M A) : Prop :=
  forall w, f (fst (m w)) = f w.

Definition stored_transactions (w : World) : list Transaction.row :=
  transactions_table (db w).

(** ** Assumptions on the surroundings *)

(** The chain node answers a request for a height with the block of that
    height. *)
Definition rpc_faithful (env : Env) : Prop :=
  forall h b, nearRpc_block env h = Fulfilled (Val b) -> Header.height (header b) = h.

Definition in_range (lo hi : Z) (r : Block.row) : Prop := lo <= Block.height r <= hi.

(** No two stored blocks have the same height (an invariant of the data
    model). *)
Definition unique_heights (rows : list Block.row) : Prop :=
  NoDup (Block.height <$> rows).

(** Heights of a range that the store holds at most once. *)
Definition unique_within (lo hi : Z) (w : World) : Prop :=
  forall h, lo <= h <= hi -> Block_count_between h h (blocks (db w)) <= 1.

(** ** Batches of the pipeline *)



(** ** What [saveBlocks] stores and prints *)

(** A console line of [saveBlocks]. *)
Definition is_save_warning (entry : LogEntry) : Prop :=
  exists error, entry = WarnSaveFailed error.

(** The hash under which a block is stored. *)
Definition stored_hash (env : Env) (blockInfo : BlockInfo) : string :=
  toBase58 env (Header.hash (header blockInfo)).

(** A block that passes the filter of [saveBlocks]. *)
Definition has_transactions (blockInfo : BlockInfo) : Prop :=
  0 < Z.of_nat (length (transactions blockInfo)).

(** ** A healthy database and a chain that serves every height *)

(** A database that runs every statement. *)
Definition healthy (env : Env) : Prop := forall n, db_fault env n = false.

(** A chain node that answers every request for a height [h] with the block
    [chain h]. *)
Definition serves (env : Env) (chain : Z -> BlockInfo) : Prop :=
  forall h, nearRpc_block env h = Fulfilled (Val (chain h)).

(** The row under which the block of a height is stored. *)
Definition chain_row (env : Env) (chain : Z -> BlockInfo) (h : Z) : Block.row :=
  block_row env (chain h).

(** The block at every height carries that height. *)
Definition chain_heights (chain : Z -> BlockInfo) : Prop :=
  forall h, Header.height (header (chain h)) = h.

(** Blocks of different heights are stored under different hashes. *)
Definition distinct_hashes (env : Env) (chain : Z -> BlockInfo) : Prop :=
  forall h h', stored_hash env (chain h) = stored_hash env (chain h') -> h = h'.

(** Every stored row has the hash of the chain's block of its height. *)
Definition holds_chain (env : Env) (chain : Z -> BlockInfo) (rows : list Block.row) : Prop :=
  Forall (fun r => Block.hash r = stored_hash env (chain (Block.height r))) rows.

(** A store that holds blocks of the chain, each height once. *)
Definition in_step (env : Env) (chain : Z -> BlockInfo) (w : World) : Prop :=
  unique_heights (blocks (db w)) /\ holds_chain env chain (blocks (db w)).

(** A height of which the store holds a block. *)
Definition stored (h : Z) (w : World) : Prop := h ∈ Block.height <$> blocks (db w).

(** ** The passes *)

(** The height the chain node reports, when it reports a number. *)
Definition reported_height (nearRpc_status : Outcome NodeStatus RpcError) : option Z :=
  match nearRpc_status with
  | Fulfilled (Val nodeStatus) =>
      match sync_info nodeStatus with
      | Val info =>
          match SyncInfo.latest_block_height info with
          | JNumber h => Some h
          | _ => None
          end
      | Undef => None
      end
  | _ => None
  end.

(** The heights of the highest and of the lowest stored block, 0 when there
    is none: the watermarks the passes start from. *)
Definition latest_synced_height (w : World) : Z :=
  from_option Block.height 0 (Block_findOne_highest (blocks (db w))).

Definition oldest_synced_height (w : World) : Z :=
  from_option Block.height 0 (Block_findOne_lowest (blocks (db w))).

(** ** Telemetry *)

(** The reports of one node among those delivered. *)
Definition reports_of (id : string) (reports : list (Z * NodeInfo))
  : list (Z * NodeInfo) :=
  filter (fun report => node_id (snd report) = id) reports.

(* ===================================================================== *)
(** * Sample data                                                         *)
(* ===================================================================== *)

Module Sample.

(** A block of 2 October 2019 whose header timestamp, 1570000000000999936
    ns, is an integer that a double holds exactly. *)
Definition block (height : Z) (hash : string) (txs : list Tx.t) : BlockInfo :=
  {| header := {| Header.hash := HashString hash;
                  Header.height := height;
                  Header.prev_hash := HashString "11111111";
                  Header.timestamp := Number.of_Z 1570000000000999936;
                  Header.total_weight_num := height |};
     transactions := txs |}.

Definition send_money : Tx.t :=
  {| Tx.hash := HashString "tx-1";
     Tx.body := [("SendMoney", {| originator := "alice"; payload := "bob:5" |})] |}.

(** The name a sample chain gives to the block at a height. *)
Definition hash_at (height : Z) : string :=
  String.append "block-" (pretty height).

(** A chain node that has every block except the one at height 2, for
    which the transport fails. *)
Definition chain (height : Z) : Outcome BlockInfo RpcError :=
  if height =? 2
  then Rejected (Val {| err_type := Val "system"; err_message := "ECONNRESET" |})
  else Fulfilled (Val (block height (hash_at height) [])).

(** Queue sizes 10, 2 and 5, a healthy database. *)
Definition env (joins_transaction : bool) : Env :=
  {| syncFetchQueueSize := 10;
     syncSaveQueueSize := 2;
     bulkDbUpdateSize := 5;
     nearRpc_block := chain;
     bs58_encode := fun _ => "";
     cls := joins_transaction;
     db_fault := fun _ => false |}.

(** The same, with a database that fails the n-th write statement. *)
Definition env_failing (joins_transaction : bool) (n : nat) : Env :=
  {| syncFetchQueueSize := 10;
     syncSaveQueueSize := 2;
     bulkDbUpdateSize := 5;
     nearRpc_block := chain;
     bs58_encode := fun _ => "";
     cls := joins_transaction;
     db_fault := fun k => bool_decide (k = n) |}.

(** A store that holds the blocks of the given heights. *)
Definition world_with (heights : list Z) : World :=
  fst (saveBlocks (env true)
         ((fun h => Val (block h (hash_at h) [])) <$> heights) empty_world).

Definition report : NodeInfo :=
  {| node_id := "ed25519:7PGseFbWxvYVgZ89K1uTJKYoKetWs7BJtbyXDzfbAcqX";
     account_id := "validator.near";
     ip_address := "203.0.113.7";
     latest_block_height := 1234 |}.

(** A bus that always answers in 42 ms on the network ["testnet"], and one
    whose procedure fails. *)
Definition network_of (_ : gmap string string) (_ : js string) : string + string :=
  inr "testnet".
Definition bus_up (_ : string) (_ : string) (_ : list (gmap string JsValue))
  : string + Z := inr 42.
Definition bus_down (_ : string) (_ : string) (_ : list (gmap string JsValue))
  : string + Z := inl "wamp.error.no_such_procedure".

Definition post (forwarded_for : js string) (debug : option string) : HttpRequest :=
  {| x_forwarded_for := forwarded_for;
     connection_remoteAddress := Val "10.0.0.1";
     socket_remoteAddress := Val "10.0.0.1";
     query := match debug with Some v => {["debug" := v]} | None => ∅ end;
     host := Val "explorer.testnet.near.org";
     body := {["node_id" := JString "n1"]} |}.

End Sample.

(** A chain node that has every block, on a healthy database. *)
Module Healthy.

Definition chain (height : Z) : BlockInfo :=
  Sample.block height (Sample.hash_at height) [].

Definition env : Env :=
  {| syncFetchQueueSize := 10;
     syncSaveQueueSize := 2;
     bulkDbUpdateSize := 5;
     nearRpc_block := fun height => Fulfilled (Val (chain height));
     bs58_encode := fun _ => "";
     cls := true;
     db_fault := fun _ => false |}.

(** A node that reports the given height. *)
Definition status (height : JsValue) : Outcome NodeStatus RpcError :=
  Fulfilled (Val {| sync_info := Val {| SyncInfo.latest_block_height := height |} |}).

(** A process whose store holds the blocks of the given heights. *)
Definition process_with (heights : list Z) : Process :=
  {| world := Sample.world_with heights; pass_console := [] |}.

End Healthy.

(** A chain node whose transport fails at height 2 without a reason (the
    promise of [nearRpc.block(2)] is rejected with [undefined], as
    [Promise.reject()] is), and a store that holds two blocks of height 3,
    under two hashes, as after a fork. *)
Module Faulty.

Definition chain (height : Z) : Outcome BlockInfo RpcError :=
  if height =? 2 then Rejected Undef
  else Fulfilled (Val (Sample.block height (Sample.hash_at height) [])).

Definition env : Env :=
  {| syncFetchQueueSize := 10;
     syncSaveQueueSize := 2;
     bulkDbUpdateSize := 5;
     nearRpc_block := chain;
     bs58_encode := fun _ => "";
     cls := true;
     db_fault := fun _ => false |}.

Definition forked : World :=
  fst (saveBlocks (Sample.env true)
         [Val (Sample.block 2 "block-2" []);
          Val (Sample.block 3 "block-3a" []);
          Val (Sample.block 3 "block-3b" []);
          Val (Sample.block 4 "block-4" [])]
         empty_world).

End Faulty.

(* ===================================================================== *)
(** * The [Result] envelope                                               *)
(* ===================================================================== *)

Lemma promiseResult_settled {V E E'} (o : Outcome V E) :
  promiseResult (E' := E') (Settled o) =
  Settled (Fulfilled (Val match o with
                          | Fulfilled v => mkResult v Undef
                          | Rejected e => mkResult Undef e
                          end)).
Proof. destruct o; reflexivity. Qed.

Lemma resolved_promiseResult {V E E'} (o : Outcome V E) :
  resolved (promiseResult (E' := E') (Settled o)) =
  match o with
  | Fulfilled v => mkResult v Undef
  | Rejected e => mkResult Undef e
  end.
Proof. rewrite promiseResult_settled. reflexivity. Qed.

(** C7, as stated, fails: a promise rejected with the reason [undefined]
    (as [Promise.reject()] is) yields an envelope whose [isError()] is
    false, so [isError()] is not true exactly when the promise rejected. *)
Lemma promiseResult_isError_not_iff_rejected :
  ~ (forall (p : Promise Z string) (r : Result Z string),
        promiseResult (E' := Empty_set) p = Settled (Fulfilled (Val r)) ->
        (isError r = true <-> exists e, p = Settled (Rejected e))).
Proof.
  intros H.
  specialize (H (Settled (Rejected Undef)) (mkResult Undef Undef) eq_refl).
  destruct H as [_ H]. discriminate H. eauto.
Qed.

(** C7, amended: [promiseResult(p)] never rejects; it stays pending exactly
    when [p] never settles and otherwise resolves with an envelope that
    carries the value [v] when [p] fulfils with [v] and the reason [e] when
    [p] rejects with [e]; [isError()] of that envelope is true exactly when
    [p] rejected with a reason other than [undefined]. *)
Theorem promiseResult_envelope {V E E'} (p : Promise V E) :
  promiseResult (E' := E') p =
    match p with
    | Pending => Pending
    | Settled (Fulfilled v) => Settled (Fulfilled (Val (mkResult v Undef)))
    | Settled (Rejected e) => Settled (Fulfilled (Val (mkResult Undef e)))
    end
  /\ (forall r : Result V E,
        promiseResult (E' := E') p = Settled (Fulfilled (Val r)) ->
        isError r = match p with
                    | Settled (Rejected (Val _)) => true
                    | _ => false
                    end).
Proof.
  split.
  - destruct p as [|[v|e]]; reflexivity.
  - intros r. destruct p as [|[v|[|e]]]; cbn; intros H; try discriminate H;
      injection H as <-; reflexivity.
Qed.

(* ===================================================================== *)
(** * Timestamps                                                          *)
(* ===================================================================== *)

(** C4: the stored timestamp is computed in double precision.  For the
    header timestamp 1570000000000999936 ns, an integer that a double holds
    exactly, the quotient 1570000000000.999936 is rounded to the nearest
    double, which is 1570000000001, before [parseInt] truncates it: the row
    stores 1570000000001 ms where floor(ns / 1000000) is 1570000000000. *)
Theorem block_row_timestamp_rounds_up (env : Env) :
  let ns := 1570000000000999936 in
  let blockInfo := Sample.block 7 "block-7" [] in
  Number.to_Z_exact (Header.timestamp (header blockInfo)) = Some ns
  /\ Block.timestamp (block_row env blockInfo) = Number.PInt 1570000000001
  /\ ns `div` 1000000 = 1570000000000.
Proof. vm_compute. auto. Qed.

(** Where the quotient is far from an integer the two agree. *)
Example block_row_timestamp_agrees :
  timestamp_ms (Number.of_Z 1569888000123456768) = Number.PInt 1569888000123
  /\ 1569888000123456768 `div` 1000000 = 1569888000123.
Proof. vm_compute. auto. Qed.

(* ===================================================================== *)
(** * Telemetry                                                           *)
(* ===================================================================== *)

(** C10: a telemetry report is stored under its [node_id] as a row whose
    [moniker] and [accountId] both hold the report's [account_id] and whose
    [ipAddress] and [lastHeight] hold [ip_address] and
    [latest_block_height]; the report has no field that would feed
    [moniker] alone. *)
Theorem node_telemetry_stores_report (env : Env) (now : Z) (nodeInfo : NodeInfo)
    (w : World) :
  db_fault env (statements w) = false ->
  let w' := fst (node_telemetry env now nodeInfo w) in
  nodes (db w') !! node_id nodeInfo =
    Some {| Node.nodeId := node_id nodeInfo;
            Node.moniker := account_id nodeInfo;
            Node.accountId := account_id nodeInfo;
            Node.ipAddress := ip_address nodeInfo;
            Node.lastSeen := now;
            Node.lastHeight := latest_block_height nodeInfo |}
  /\ Node.moniker (node_row now nodeInfo) = account_id nodeInfo.
Proof.
  intros Hok. cbn.
  unfold node_telemetry, Node_upsert, mbind, M_bind, issue_statement.
  rewrite Hok. cbn. split; [apply lookup_insert_eq | reflexivity].
Qed.

Lemma node_telemetry_stores_report_witness :
  nodes (db (fst (node_telemetry (Sample.env true) 1570000000000 Sample.report
                    empty_world)))
    !! "ed25519:7PGseFbWxvYVgZ89K1uTJKYoKetWs7BJtbyXDzfbAcqX"
  = Some {| Node.nodeId := "ed25519:7PGseFbWxvYVgZ89K1uTJKYoKetWs7BJtbyXDzfbAcqX";
            Node.moniker := "validator.near";
            Node.accountId := "validator.near";
            Node.ipAddress := "203.0.113.7";
            Node.lastSeen := 1570000000000;
            Node.lastHeight := 1234 |}.
Proof.
  apply (node_telemetry_stores_report (Sample.env true) 1570000000000
           Sample.report empty_world).
  reflexivity.
Defined.

(** C8, as stated, fails in three places: an [X-Forwarded-For] header that
    is present but empty is passed over; a [debug] parameter that is present
    but empty gets the answer [{}]; and when the forward fails the answer is
    neither [{}] nor a timing but status 400 with the error. *)
Lemma handler_presence_counterexample :
  (* present, empty header: the peer address is forwarded *)
  (let req := Sample.post (Val "") None in
   x_forwarded_for req = Val ""
   /\ telemetry_payload req !! "ip_address" = Some (JString "10.0.0.1"))
  (* present, empty debug parameter: the answer is {} *)
  /\ (let req := Sample.post (Val "198.51.100.9") (Some "") in
      query req !! "debug" = Some ""
      /\ snd (handler Sample.network_of Sample.bus_up req)
         = mkHttpResponse 200 EmptyObject)
  (* failed forward: the answer is the error *)
  /\ (let req := Sample.post (Val "198.51.100.9") None in
      snd (handler Sample.network_of Sample.bus_down req)
      = mkHttpResponse 400 (ErrorBody "wamp.error.no_such_procedure")).
Proof. vm_compute. auto. Qed.

(** C8, amended: when the network is found and the bus answers, the handler
    has called the procedure [node-telemetry] of that network with the
    request body in which [ip_address] is the first non-empty one of the
    [X-Forwarded-For] header and the peer address, and the socket address
    otherwise, and it answers 200 with the timing when the [debug]
    parameter is non-empty and with [{}] when it is absent or empty; when
    the bus call fails it answers 400 with the error. *)
Theorem handler_forwards_report {Network Timing Failure : Type}
    (getNearNetworkName : gmap string string -> js string -> Failure + Network)
    (getFetcher : Network -> string -> list (gmap string JsValue) -> Failure + Timing)
    (req : HttpRequest) (networkName : Network) :
  getNearNetworkName (query req) (host req) = inr networkName ->
  let payload :=
    <["ip_address" :=
        to_JsValue
          (if truthy (x_forwarded_for req) then x_forwarded_for req
           else if truthy (connection_remoteAddress req)
                then connection_remoteAddress req
                else socket_remoteAddress req)]> (body req) in
  fst (handler getNearNetworkName getFetcher req)
    = Some (mkForward networkName "node-telemetry" [payload])
  /\ snd (handler getNearNetworkName getFetcher req)
    = match getFetcher networkName "node-telemetry" [payload] with
      | inr timing =>
          mkHttpResponse 200
            match query req !! "debug" with
            | None | Some "" => EmptyObject
            | Some _ => TimingObject timing
            end
      | inl error => mkHttpResponse 400 (ErrorBody error)
      end.
Proof.
  intros Hnet. cbn zeta. unfold handler. rewrite Hnet.
  unfold telemetry_payload, client_address, or_else.
  destruct (getFetcher _ _ _) as [error|timing]; cbn [fst snd]; split; try reflexivity.
  f_equal. destruct (query req !! "debug") as [v|]; [|reflexivity].
  cbn. case_bool_decide as Hv; [subst v; reflexivity|].
  destruct v; [contradiction|reflexivity].
Qed.

Lemma handler_forwards_report_witness :
  fst (handler Sample.network_of Sample.bus_up
         (Sample.post (Val "198.51.100.9") (Some "1")))
    = Some (mkForward "testnet" "node-telemetry"
              [<["ip_address" := JString "198.51.100.9"]>
                 (body (Sample.post (Val "198.51.100.9") (Some "1")))])
  /\ snd (handler Sample.network_of Sample.bus_up
            (Sample.post (Val "198.51.100.9") (Some "1")))
    = mkHttpResponse 200 (TimingObject 42).
Proof.
  apply (handler_forwards_report Sample.network_of Sample.bus_up
           (Sample.post (Val "198.51.100.9") (Some "1")) "testnet").
  reflexivity.
Defined.

(* ===================================================================== *)
(** * Reasoning about computations                                        *)
(* ===================================================================== *)

Lemma bind_unfold {A B} (m : M A) (f : A -> M B) (w : World) :
  (m ≫= f) w = match m w with
               | (w', Ok a) => f a w'
               | (w', Throw e) => (w', Throw e)
               end.
Proof. reflexivity. Qed.

Lemma mapM_cons {A B} (f : A -> M B) (x : A) (l : list A) :
  mapM f (x :: l) = (y ← f x; k ← mapM f l; mret (y :: k)).
Proof. reflexivity. Qed.

Lemma total_ret {A} (a : A) : total (mret a).
Proof. intros w. by exists w, a. Qed.

Lemma total_bind {A B} (m : M A) (f : A -> M B) :
  total m -> (forall a, total (f a)) -> total (m ≫= f).
Proof.
  intros Hm Hf w. destruct (Hm w) as (w1 & a & Ha).
  rewrite bind_unfold, Ha. apply Hf.
Qed.

Lemma total_mapM {A B} (f : A -> M B) (l : list A) :
  (forall x, total (f x)) -> total (mapM f l).
Proof.
  intros Hf. induction l as [|x l IH]; [apply total_ret|].
  rewrite mapM_cons. apply total_bind; [apply Hf|]. intros y.
  apply total_bind; [apply IH|]. intros k. apply total_ret.
Qed.

Lemma total_try_catch {A} (body : M A) (handler : Exn -> M A) :
  (forall e, total (handler e)) -> total (try_catch body handler).
Proof.
  intros Hh w. unfold try_catch. destruct (body w) as [w1 [a|e]]; [by eauto|].
  apply Hh.
Qed.

Lemma total_console_log entry : total (console_log entry).
Proof. intros w. by eexists _, _. Qed.

Lemma saveBlocks_total env blocksInfo : total (saveBlocks env blocksInfo).
Proof.
  apply total_try_catch. intros e. apply total_console_log.
Qed.

(* ===================================================================== *)
(** * Harvesting a batch                                                  *)
(* ===================================================================== *)

Lemma log_all_nil w : log_all [] w = w.
Proof. destruct w. unfold log_all. cbn. by rewrite app_nil_r. Qed.

Lemma log_all_app l1 l2 w : log_all l2 (log_all l1 w) = log_all (l1 ++ l2) w.
Proof. unfold log_all. cbn. by rewrite app_assoc. Qed.

Lemma fetched_cons q l : fetched (q :: l) = fetched [q] ++ fetched l.
Proof.
  unfold fetched. rewrite !filter_cons, filter_nil.
  destruct (decide _); reflexivity.
Qed.

Lemma failure_logs_cons q l : failure_logs (q :: l) = failure_logs [q] ++ failure_logs l.
Proof.
  unfold failure_logs. cbn. destruct q as [h r]. destruct (error r); reflexivity.
Qed.

Lemma harvest_eq (q : Request) (w : World) :
  harvest q w = (log_all (failure_logs [q]) w, Ok (fetched [q])).
Proof.
  destruct q as [h [v [|e]]]; unfold harvest, fetched, failure_logs, isError; cbn.
  - by rewrite log_all_nil.
  - rewrite !bind_unfold. cbn. destruct (decide _); reflexivity.
Qed.

Lemma mapM_harvest (requests : list Request) (w : World) :
  exists blocks,
    mapM harvest requests w = (log_all (failure_logs requests) w, Ok blocks)
    /\ concat blocks = fetched requests.
Proof.
  revert w. induction requests as [|q requests IH]; intros w.
  - exists []. cbn. by rewrite log_all_nil.
  - rewrite mapM_cons, bind_unfold, harvest_eq, bind_unfold.
    destruct (IH (log_all (failure_logs [q]) w)) as (blocks & -> & Hb).
    eexists. split.
    + cbn [mret M_ret]. rewrite log_all_app, <- failure_logs_cons. reflexivity.
    + cbn [concat]. rewrite Hb, <- fetched_cons. reflexivity.
Qed.

Lemma saveBlocksFromRequests_eq env requests w :
  saveBlocksFromRequests env requests w
  = saveBlocks env (fetched requests) (log_all (failure_logs requests) w).
Proof.
  unfold saveBlocksFromRequests. rewrite bind_unfold.
  destruct (mapM_harvest requests w) as (blocks & -> & ->). reflexivity.
Qed.

Lemma saveBlocksFromRequests_total env requests :
  total (saveBlocksFromRequests env requests).
Proof. intros w. rewrite saveBlocksFromRequests_eq. apply saveBlocks_total. Qed.

Lemma syncNearcoreBlocks_total env top bottom :
  total (syncNearcoreBlocks env top bottom).
Proof.
  unfold syncNearcoreBlocks. destruct (top <? bottom); [apply total_ret|].
  apply total_bind; [apply total_console_log|]. intros _.
  apply total_bind; [|intros; apply total_ret].
  apply total_mapM. intros batch. apply saveBlocksFromRequests_total.
Qed.

(** ** The requests of one call *)

Lemma all_requests_push env p :
  all_requests (push_request env p)
  = all_requests p ++ [request env (syncingBlockHeight p)].
Proof. unfold all_requests, push_request. cbn. by rewrite !app_assoc. Qed.

Lemma all_requests_detach env p :
  all_requests (detach_batch env p) = all_requests p.
Proof.
  unfold all_requests, detach_batch, splice0.
  destruct (_ <? _). 2:{ reflexivity. } cbn.
  rewrite concat_app. cbn. rewrite app_nil_r, <- !app_assoc.
  by rewrite take_drop.
Qed.

Lemma all_requests_await env p :
  all_requests (snd (await_oldest_save env p)) = all_requests p.
Proof.
  unfold await_oldest_save.
  destruct (_ <? _); [|done]. destruct p as [h rs [|oldest rest] aw ad]; [done|].
  unfold all_requests. cbn. rewrite concat_app. cbn.
  by rewrite app_nil_r, <- !app_assoc.
Qed.

Lemma height_detach env p :
  syncingBlockHeight (detach_batch env p) = syncingBlockHeight p.
Proof. unfold detach_batch, splice0. by destruct (_ <? _). Qed.

Lemma height_await env p :
  syncingBlockHeight (snd (await_oldest_save env p)) = syncingBlockHeight p.
Proof.
  unfold await_oldest_save. destruct (_ <? _); [|done].
  by destruct p as [h rs [|oldest rest] aw ad].
Qed.

Lemma sync_loop_snd n env bottom p :
  snd (sync_loop (S n) env bottom p)
  = if bottom <=? syncingBlockHeight p
    then snd (sync_loop n env bottom
                (snd (await_oldest_save env (detach_batch env (push_request env p)))))
    else p.
Proof.
  cbn [sync_loop]. destruct (_ <=? _); [|done].
  destruct (await_oldest_save _ _) as [susp p3]. cbn [snd].
  by destruct (sync_loop n env bottom p3).
Qed.

Lemma sync_loop_requests env bottom n : forall p,
  Z.of_nat n <= syncingBlockHeight p - bottom + 1 ->
  let final := snd (sync_loop n env bottom p) in
  all_requests final
  = all_requests p ++ (request env <$> down_from n (syncingBlockHeight p))
  /\ syncingBlockHeight final = syncingBlockHeight p - Z.of_nat n.
Proof.
  induction n as [|n IH]; intros p Hn; cbn zeta.
  - cbn. rewrite app_nil_r. split; [done|lia].
  - rewrite sync_loop_snd.
    destruct (Z.leb_spec bottom (syncingBlockHeight p)) as [Hle|Hlt]; [|lia].
    set (p3 := snd (await_oldest_save _ _)).
    assert (Hh : syncingBlockHeight p3 = syncingBlockHeight p - 1).
    { subst p3. by rewrite height_await, height_detach. }
    destruct (IH p3) as [Hreq Hfin]; [lia|].
    rewrite Hreq, Hfin, Hh. subst p3.
    rewrite all_requests_await, all_requests_detach, all_requests_push.
    split; [|lia]. cbn [down_from fmap list_fmap]. by rewrite <- app_assoc.
Qed.

Lemma sync_loop_exit env top bottom :
  bottom <= top ->
  syncingBlockHeight
    (snd (sync_loop (loop_iterations top bottom) env bottom (start top)))
  = bottom - 1.
Proof.
  intros H. unfold loop_iterations.
  destruct (sync_loop_requests env bottom (Z.to_nat (top - bottom + 1)) (start top))
    as [_ ->]; cbn; lia.
Qed.

Lemma batches_cover env top bottom :
  concat (batches env top bottom) = request env <$> descending top bottom.
Proof.
  unfold batches, descending.
  destruct (decide (0 <= top - bottom + 1)) as [Hpos|Hneg]; cycle 1.
  { unfold loop_iterations. replace (Z.to_nat _) with O by lia. reflexivity. }
  set (n := loop_iterations top bottom).
  destruct (sync_loop_requests env bottom n (start top)) as [Hreq _].
  { cbn. unfold n, loop_iterations. lia. }
  cbn zeta in Hreq. cbn [start syncingBlockHeight] in Hreq.
  rewrite <- (app_nil_l (_ <$> _)). change [] with (all_requests (start top)).
  rewrite <- Hreq. unfold all_requests, flush. cbn.
  rewrite !concat_app. cbn. by rewrite app_nil_r.
Qed.

(** One failed and two good fetches in a batch: the failure is logged, the
    two blocks are stored. *)
Example mixed_batch_is_saved :
  let w := fst (saveBlocksFromRequests (Sample.env true)
                  (request (Sample.env true) <$> [3; 2; 1]) empty_world) in
  Block.height <$> blocks (db w) = [3; 1]
  /\ console w = [LogSystemError 2 "ECONNRESET"].
Proof. vm_compute. auto. Qed.



(* ===================================================================== *)
(** * Persisting a batch                                                  *)
(* ===================================================================== *)

Section Keeps.
Context {X : Type} (f : World -> X).

Lemma keeps_ret {A} (a : A) : keeps f (mret a).
Proof. done. Qed.

Lemma keeps_throw {A} e : keeps f (throw (A := A) e).
Proof. done. Qed.

Lemma keeps_bind {A B} (m : M A) (k : A -> M B) :
  keeps f m -> (forall a, keeps f (k a)) -> keeps f (m ≫= k).
Proof.
  intros Hm Hk w. rewrite bind_unfold. specialize (Hm w).
  destruct (m w) as [w1 [a|e]]; cbn [fst] in *; [|done]. by rewrite Hk.
Qed.

Lemma keeps_try_catch {A} (body : M A) handler :
  keeps f body -> (forall e, keeps f (handler e)) -> keeps f (try_catch body handler).
Proof.
  intros Hb Hh w. unfold try_catch. specialize (Hb w).
  destruct (body w) as [w1 [a|e]]; cbn [fst] in *; [done|]. by rewrite Hh.
Qed.

Lemma keeps_mapM {A B} (k : A -> M B) (l : list A) :
  (forall x, keeps f (k x)) -> keeps f (mapM k l).
Proof.
  intros Hk. induction l as [|x l IH]; [apply keeps_ret|].
  rewrite mapM_cons. apply keeps_bind; [done|]. intros y.
  apply keeps_bind; [done|]. intros ys. apply keeps_ret.
Qed.

End Keeps.

Lemma keeps_transactions_issue env : keeps stored_transactions (issue_statement env).
Proof. intros w. unfold issue_statement. by destruct (db_fault _ _). Qed.

Lemma saveBlocks_body_keeps_transactions env blocksInfo :
  keeps stored_transactions (saveBlocks_body env blocksInfo).
Proof.
  assert (Hderef : forall A (x : js A), keeps stored_transactions (deref x)).
  { intros A [|a]; [apply keeps_throw|apply keeps_ret]. }
  unfold saveBlocks_body.
  apply keeps_bind.
  { apply keeps_mapM. intros x. apply keeps_bind; [done|]. intros; apply keeps_ret. }
  intros rows. apply keeps_bind.
  { unfold Block_bulkCreate, bulkCreate. apply keeps_bind; [apply keeps_transactions_issue|].
    intros _ w. unfold insert_rows. by destruct (decide _). }
  intros _. apply keeps_bind.
  { apply keeps_mapM. intros x. apply keeps_bind; [done|]. intros; apply keeps_ret. }
  intros crows. apply keeps_bind.
  { unfold Chunk_bulkCreate, bulkCreate. apply keeps_bind; [apply keeps_transactions_issue|].
    intros _ w. unfold insert_rows. by destruct (decide _). }
  intros _. apply keeps_bind; [by apply keeps_mapM|].
  intros bs. apply keeps_bind; [|intros; apply keeps_ret].
  apply keeps_mapM. intros b. unfold save_transactions_of.
  apply keeps_bind; [|done].
  apply keeps_mapM. intros tx. unfold transaction_row.
  destruct (Tx.body tx) as [|[kind args] ?]; [apply keeps_throw|apply keeps_ret].
Qed.

(** [saveBlocks] never writes the Transaction table. *)
Lemma saveBlocks_keeps_transactions env blocksInfo :
  keeps stored_transactions (saveBlocks env blocksInfo).
Proof.
  unfold saveBlocks, warn_save_failed.
  apply keeps_try_catch; [|done]. intros w. unfold sequelize_transaction.
  pose proof (keeps_try_catch stored_transactions (saveBlocks_body env blocksInfo)
                (fun error => console_log (WarnSaveFailed error))
                (saveBlocks_body_keeps_transactions env blocksInfo)
                ltac:(done) w) as Hcb.
  assert (Hroll : forall w', stored_transactions w' = stored_transactions w ->
            stored_transactions (rollback env (db w) w') = stored_transactions w).
  { intros w' Hw'. unfold rollback. by destruct (cls env). }
  destruct (try_catch _ _ w) as [w1 [[]|e]]; cbn [fst] in *; [|by apply Hroll].
  pose proof (keeps_transactions_issue env w1) as Hst.
  destruct (issue_statement env w1) as [w2 [[]|e]]; cbn [fst] in *; [congruence|].
  apply Hroll. congruence.
Qed.

(** Whatever the body of the inner [try] has written when it ends, by
    returning or by throwing, is committed, unless the COMMIT itself fails. *)
Lemma saveBlocks_commits_body env blocksInfo w :
  let w1 := fst (saveBlocks_body env blocksInfo w) in
  db_fault env (statements w1) = false ->
  db (fst (saveBlocks env blocksInfo w)) = db w1.
Proof.
  cbn zeta. unfold saveBlocks, try_catch, sequelize_transaction, warn_save_failed.
  destruct (saveBlocks_body env blocksInfo w) as [w1 [[]|e]]; cbn [fst];
    intros Hok; unfold issue_statement; cbn; by rewrite Hok.
Qed.

(** C2: the inner [catch] logs the error and swallows it, so the callback
    of the managed transaction always fulfils and the transaction is
    committed with whatever the body wrote before it failed.  For a batch of
    one block, persisted while the database fails the second write
    statement (the INSERT of the chunks), the Block row is in the store
    without its Chunk row and without its Transaction row, and the batch is
    not dropped; this is so whether or not the statements join the
    transaction. *)
Theorem saveBlocks_commits_partial_batch (joins_transaction : bool) :
  (forall env blocksInfo w,
     db_fault env (statements (fst (saveBlocks_body env blocksInfo w))) = false ->
     db (fst (saveBlocks env blocksInfo w))
     = db (fst (saveBlocks_body env blocksInfo w)))
  /\ (let env := Sample.env_failing joins_transaction 1 in
      let batch := [Val (Sample.block 5 "block-5" [Sample.send_money])] in
      let w := fst (saveBlocks env batch empty_world) in
      snd (saveBlocks env batch empty_world) = Ok ()
      /\ Block.hash <$> blocks (db w) = ["block-5"]
      /\ chunks (db w) = []
      /\ transactions_table (db w) = []
      /\ detached w = []
      /\ console w = [WarnSaveFailed DatabaseError]).
Proof.
  split; [apply saveBlocks_commits_body|].
  destruct joins_transaction; vm_compute; auto 10.
Qed.

(** The same happens without any failure of the database, when the third
    [map] throws (a transaction whose body has no key). *)
Example saveBlocks_commits_before_type_error (joins_transaction : bool) :
  let env := Sample.env joins_transaction in
  let batch :=
    [Val (Sample.block 5 "block-5" [{| Tx.hash := HashString "tx-0"; Tx.body := [] |}])] in
  let w := fst (saveBlocks env batch empty_world) in
  Block.hash <$> blocks (db w) = ["block-5"]
  /\ Chunk.hash <$> chunks (db w) = ["block-5"]
  /\ transactions_table (db w) = []
  /\ console w = [WarnSaveFailed TypeError].
Proof. destruct joins_transaction; vm_compute; auto 10. Qed.

(** C6: [saveBlocks] never inserts a Transaction row itself: from every
    world and for every batch, the Transaction table is the same when it
    returns as when it was called.  For a batch of one block with one
    transaction and a healthy database: when [saveBlocks] returns, the three
    statements of the transaction (two INSERTs and the COMMIT) have run and
    the Transaction table is still empty; the INSERT of the Transaction row
    is only queued, its promise was never given to [Promise.all].  When the
    queued statement later fails, the row is lost and nothing is logged or
    rolled back. *)
Theorem saveBlocks_leaves_transactions_behind (joins_transaction : bool) :
  (forall env blocksInfo w,
     transactions_table (db (fst (saveBlocks env blocksInfo w)))
     = transactions_table (db w))
  /\ (let env := Sample.env joins_transaction in
      let batch := [Val (Sample.block 5 "block-5" [Sample.send_money])] in
      let w := fst (saveBlocks env batch empty_world) in
      snd (saveBlocks env batch empty_world) = Ok ()
      /\ Chunk.hash <$> chunks (db w) = ["block-5"]
      /\ statements w = 3%nat
      /\ transactions_table (db w) = []
      /\ map (map Transaction.hash) (detached w) = [["tx-1"]]
      /\ (let later := run_detached (Sample.env_failing joins_transaction 3) w in
          transactions_table (db later) = []
          /\ Chunk.hash <$> chunks (db later) = ["block-5"]
          /\ console later = [])).
Proof.
  split; [intros env blocksInfo w; apply (saveBlocks_keeps_transactions env blocksInfo w)|].
  destruct joins_transaction; vm_compute; auto 10.
Qed.

(* ===================================================================== *)
(** * Queue bounds                                                        *)
(* ===================================================================== *)

Section QueueBounds.
Variable env : Env.
Hypothesis Hfq : 0 <= syncFetchQueueSize env.
Hypothesis Hsq : 0 <= syncSaveQueueSize env.
Hypothesis Hbulk : 1 <= bulkDbUpdateSize env.

Lemma turn_bounds p :
  at_rest env p ->
  let p1 := push_request env p in
  let p2 := detach_batch env p1 in
  loosely_within env p1 /\ loosely_within env p2
  /\ Forall (loosely_within env) (fst (await_oldest_save env p2))
  /\ at_rest env (snd (await_oldest_save env p2)).
Proof.
  destruct p as [h rs sv aw ad]. unfold at_rest, loosely_within, within.
  unfold pending_requests, in_flight_saves. cbn. intros [[Hr Hs] ->].
  rewrite length_app. cbn [length].
  split; [lia|].
  assert (Hp2 :
    let p2 := detach_batch env (mkPipeline (h - 1) (rs ++ [request env h]) sv None ad) in
    Z.of_nat (length (requests p2)) <= syncFetchQueueSize env
    /\ Z.of_nat (length (saves p2)) <= syncSaveQueueSize env + 1
    /\ awaiting p2 = None).
  { unfold detach_batch, splice0. cbn. rewrite length_app. cbn [length].
    destruct (Z.ltb_spec (syncFetchQueueSize env) (Z.of_nat (length rs + 1))); cbn.
    - rewrite length_drop, !length_app. cbn [length]. repeat split; lia.
    - rewrite length_app. cbn [length]. repeat split; lia. }
  cbn zeta in Hp2. destruct (detach_batch _ _) as [h2 rs2 sv2 aw2 ad2].
  cbn in Hp2. destruct Hp2 as (Hr2 & Hs2 & ->).
  split; [cbn; lia|].
  unfold await_oldest_save. cbn.
  destruct (Z.ltb_spec (syncSaveQueueSize env) (Z.of_nat (length sv2))).
  - destruct sv2 as [|oldest rest]; cbn in *; [lia|].
    split; [constructor; [cbn; lia|constructor]|]. repeat split; lia.
  - cbn. split; [constructor|]. repeat split; lia.
Qed.

Lemma at_rest_loose p : at_rest env p -> loosely_within env p.
Proof. unfold at_rest, loosely_within, within. lia. Qed.

Lemma sync_loop_bounds bottom n : forall p,
  at_rest env p ->
  Forall (loosely_within env) (fst (sync_loop n env bottom p))
  /\ at_rest env (snd (sync_loop n env bottom p)).
Proof.
  induction n as [|n IH]; intros p Hp; [by split|].
  cbn [sync_loop]. destruct (_ <=? _); [|by split].
  destruct (turn_bounds p Hp) as (H1 & H2 & Hs & H3).
  destruct (await_oldest_save env _) as [susp p3]. cbn [fst snd] in *.
  destruct (IH p3 H3) as [Htr Hfin].
  destruct (sync_loop n env bottom p3) as [trace final]. cbn [fst snd] in *.
  split; [|done]. constructor; [done|]. constructor; [done|].
  apply Forall_app. split; [done|]. constructor; [by apply at_rest_loose|done].
Qed.

Lemma loop_ends_bounds bottom n : forall p,
  at_rest env p ->
  Forall (within (syncFetchQueueSize env) (syncSaveQueueSize env))
         (loop_ends n env bottom p).
Proof.
  induction n as [|n IH]; intros p Hp; [constructor|].
  cbn [loop_ends]. destruct (_ <=? _); [|constructor].
  destruct (turn_bounds p Hp) as (_ & _ & _ & H3).
  constructor; [apply H3|by apply IH].
Qed.

Lemma pipeline_trace_bounds top bottom :
  Forall (loosely_within env) (pipeline_trace env top bottom).
Proof.
  unfold pipeline_trace. destruct (_ <? _); [constructor|].
  destruct (sync_loop_bounds bottom (loop_iterations top bottom) (start top))
    as [Htr [[Hr Hs] Haw]].
  { unfold at_rest, within, pending_requests, in_flight_saves. cbn. repeat split; lia. }
  destruct (sync_loop _ _ _ _) as [trace final]. cbn [fst snd] in *.
  apply Forall_app. split; [done|]. constructor; [|constructor].
  unfold loosely_within, within, pending_requests, in_flight_saves, flush in *. cbn.
  rewrite Haw in *. rewrite length_app. cbn [length]. lia.
Qed.

End QueueBounds.

(** C1, as stated, fails: with the queue sizes 10 and 2 and batches of 5, a
    call over the heights 40 down to 1 holds 11 pending requests right after
    the eleventh [push], and 3 persist batches in flight right after the
    third [saves.push]. *)
Lemma pipeline_exceeds_queue_sizes :
  Exists (fun p => syncFetchQueueSize (Sample.env true) < pending_requests p)
         (pipeline_trace (Sample.env true) 40 1)
  /\ Exists (fun p => syncSaveQueueSize (Sample.env true) < in_flight_saves p)
            (pipeline_trace (Sample.env true) 40 1).
Proof.
  split; apply Exists_exists.
  - exists (nth 30 (pipeline_trace (Sample.env true) 40 1) (start 0)).
    split; [|by vm_compute].
    apply list_elem_of_In, nth_In. vm_compute. lia.
  - exists (nth 61 (pipeline_trace (Sample.env true) 40 1) (start 0)).
    split; [|by vm_compute].
    apply list_elem_of_In, nth_In. vm_compute. lia.
Qed.

(** C1, amended: with non-negative queue sizes and batches of at least one
    request, after every statement of a call the pending requests number at
    most FETCH_QUEUE + 1 and the persist batches in flight at most
    SAVE_QUEUE + 1; at the end of every turn of the loop they number at most
    FETCH_QUEUE and SAVE_QUEUE.  When a [push] takes the pending requests
    beyond FETCH_QUEUE the oldest BULK_DB of them are detached into a new
    batch, and when that takes the batches beyond SAVE_QUEUE the function
    waits for the oldest batch. *)
Theorem pipeline_queue_bounds (env : Env) (top bottom : Z) :
  0 <= syncFetchQueueSize env ->
  0 <= syncSaveQueueSize env ->
  1 <= bulkDbUpdateSize env ->
  Forall (within (syncFetchQueueSize env + 1) (syncSaveQueueSize env + 1))
         (pipeline_trace env top bottom)
  /\ Forall (within (syncFetchQueueSize env) (syncSaveQueueSize env))
            (loop_ends (loop_iterations top bottom) env bottom (start top))
  /\ (forall p, syncFetchQueueSize env < pending_requests p ->
        detach_batch env p
        = mkPipeline (syncingBlockHeight p)
            (drop (Z.to_nat (bulkDbUpdateSize env)) (requests p))
            (saves p ++ [take (Z.to_nat (bulkDbUpdateSize env)) (requests p)])
            (awaiting p) (awaited p))
  /\ (forall h rs oldest rest aw ad,
        syncSaveQueueSize env < Z.of_nat (length (oldest :: rest)) ->
        await_oldest_save env (mkPipeline h rs (oldest :: rest) aw ad)
        = ([mkPipeline h rs rest (Some oldest) ad],
           mkPipeline h rs rest None (ad ++ [oldest]))).
Proof.
  intros Hfq Hsq Hbulk.
  split; [by apply pipeline_trace_bounds|].
  split.
  { apply loop_ends_bounds; try done;
      unfold at_rest, within, pending_requests, in_flight_saves; cbn;
      repeat split; lia. }
  split.
  - intros p Hp. unfold detach_batch, splice0, pending_requests in *.
    by replace (_ <? _) with true by (symmetry; apply Z.ltb_lt; lia).
  - intros h rs oldest rest aw ad Hlen. unfold await_oldest_save.
    cbn [saves syncingBlockHeight requests awaited].
    by replace (_ <? _) with true by (symmetry; apply Z.ltb_lt; lia).
Qed.

Lemma pipeline_queue_bounds_witness :
  Forall (within 11 3) (pipeline_trace (Sample.env true) 40 1)
  /\ Forall (within 10 2)
            (loop_ends (loop_iterations 40 1) (Sample.env true) 1 (start 40)).
Proof.
  destruct (pipeline_queue_bounds (Sample.env true) 40 1) as (H1 & H2 & _);
    [cbn; lia..|].
  exact (conj H1 H2).
Defined.

(* ===================================================================== *)
(** * What a computation adds to the Block table                          *)
(* ===================================================================== *)

Lemma grows_refl P w w' : blocks (db w') = blocks (db w) -> grows P w w'.
Proof. intros H. exists []. by rewrite app_nil_r. Qed.

Lemma grows_trans P w1 w2 w3 : grows P w1 w2 -> grows P w2 w3 -> grows P w1 w3.
Proof.
  intros (e1 & H1 & F1) (e2 & H2 & F2). exists (e1 ++ e2).
  rewrite H2, H1, app_assoc. split; [done|]. by apply Forall_app.
Qed.

Lemma grows_weaken (P P' : Block.row -> Prop) w w' :
  (forall r, P r -> P' r) -> grows P w w' -> grows P' w w'.
Proof.
  intros HP (e & H & F). exists e. split; [done|]. eapply Forall_impl; eauto.
Qed.

Lemma adds_ret {A} P (Q : A -> Prop) a : Q a -> adds_only P Q (mret a).
Proof.
  intros Ha w. split; [by apply grows_refl|]. cbn. by intros ? [= <-].
Qed.

Lemma adds_throw {A} P (Q : A -> Prop) e : adds_only P Q (throw e).
Proof. intros w. split; [by apply grows_refl|]. cbn. done. Qed.

Lemma adds_bind {A B} P (Q1 : A -> Prop) (Q2 : B -> Prop) (m : M A) (f : A -> M B) :
  adds_only P Q1 m -> (forall a, Q1 a -> adds_only P Q2 (f a)) ->
  adds_only P Q2 (m ≫= f).
Proof.
  intros Hm Hf w. rewrite bind_unfold. destruct (Hm w) as [Hg Hq].
  destruct (m w) as [w1 [a|e]]; cbn [fst snd] in *; [|by split].
  destruct (Hf a (Hq a eq_refl) w1) as [Hg' Hq']. split; [|done].
  eapply grows_trans; eauto.
Qed.

Lemma adds_weaken {A} P (Q Q' : A -> Prop) (m : M A) :
  (forall a, Q a -> Q' a) -> adds_only P Q m -> adds_only P Q' m.
Proof. intros HQ Hm w. destruct (Hm w). split; [done|]. eauto. Qed.

Lemma adds_try_catch {A} P (Q : A -> Prop) (body : M A) handler :
  adds_only P Q body -> (forall e, adds_only P Q (handler e)) ->
  adds_only P Q (try_catch body handler).
Proof.
  intros Hb Hh w. unfold try_catch. destruct (Hb w) as [Hg Hq].
  destruct (body w) as [w1 [a|e]]; cbn [fst snd] in *; [by split|].
  destruct (Hh e w1) as [Hg' Hq']. split; [|done]. eapply grows_trans; eauto.
Qed.

Lemma adds_mapM {A B} P (Q : B -> Prop) (f : A -> M B) (l : list A) :
  (forall x, x ∈ l -> adds_only P Q (f x)) -> adds_only P (Forall Q) (mapM f l).
Proof.
  induction l as [|x l IH]; intros Hf.
  - by apply adds_ret.
  - rewrite mapM_cons. eapply adds_bind; [apply Hf; left|].
    intros y Hy. eapply adds_bind; [apply IH; intros; apply Hf; by right|].
    intros k Hk. apply adds_ret. by constructor.
Qed.

Lemma adds_nothing {A} P (m : M A) :
  (forall w, blocks (db (fst (m w))) = blocks (db w)) -> adds_only P (fun _ => True) m.
Proof. intros H w. split; [by apply grows_refl|done]. Qed.

Lemma adds_console_log P entry : adds_only P (fun _ => True) (console_log entry).
Proof. by apply adds_nothing. Qed.

Lemma adds_issue_statement P env : adds_only P (fun _ => True) (issue_statement env).
Proof.
  apply adds_nothing. intros w. unfold issue_statement. by destruct (db_fault _ _).
Qed.

Lemma adds_deref {A} P (x : js A) : adds_only P (fun a => x = Val a) (deref x).
Proof. destruct x; [apply adds_throw|by apply adds_ret]. Qed.

Lemma adds_Block_bulkCreate P env rows :
  Forall P rows -> adds_only P (fun _ => True) (Block_bulkCreate env rows).
Proof.
  intros Hrows. unfold Block_bulkCreate, bulkCreate.
  eapply adds_bind; [apply adds_issue_statement|]. intros _ _ w.
  split; [|done]. unfold insert_rows. destruct (decide _); [|by apply grows_refl].
  cbn. by exists rows.
Qed.

Lemma adds_Chunk_bulkCreate P env rows :
  adds_only P (fun _ => True) (Chunk_bulkCreate env rows).
Proof.
  unfold Chunk_bulkCreate, bulkCreate.
  eapply adds_bind; [apply adds_issue_statement|]. intros _ _.
  apply adds_nothing. intros w. unfold insert_rows. by destruct (decide _).
Qed.

Lemma adds_save_transactions_of P env blockInfo :
  adds_only P (fun _ => True) (save_transactions_of env blockInfo).
Proof.
  unfold save_transactions_of.
  eapply adds_bind.
  - apply adds_mapM with (Q := fun _ => True). intros tx _.
    unfold transaction_row. destruct (Tx.body tx) as [|[kind args] ?];
      [apply adds_throw|by apply adds_ret].
  - intros rows _. by apply adds_nothing.
Qed.

Lemma adds_sequelize_transaction P env (autoCallback : M unit) :
  adds_only P (fun _ => True) autoCallback ->
  adds_only P (fun _ => True) (sequelize_transaction env autoCallback).
Proof.
  intros Hcb w. split; [|done]. unfold sequelize_transaction.
  destruct (Hcb w) as [Hg _].
  assert (Hroll : forall w', grows P w w' -> grows P w (rollback env (db w) w')).
  { intros w' Hw'. unfold rollback. destruct (cls env); [by apply grows_refl|done]. }
  destruct (autoCallback w) as [w1 [[]|e]]; cbn [fst] in *; [|by apply Hroll].
  destruct (adds_issue_statement P env w1) as [Hg1 _].
  destruct (issue_statement env w1) as [w2 [[]|e]]; cbn [fst] in *.
  - eapply grows_trans; eauto.
  - apply Hroll. eapply grows_trans; eauto.
Qed.

Lemma adds_saveBlocks P env blocksInfo :
  (forall b, Val b ∈ blocksInfo -> P (block_row env b)) ->
  adds_only P (fun _ => True) (saveBlocks env blocksInfo).
Proof.
  intros HP. unfold saveBlocks, warn_save_failed.
  apply adds_try_catch; [|intros; apply adds_console_log].
  apply adds_sequelize_transaction.
  apply adds_try_catch; [|intros; apply adds_console_log].
  unfold saveBlocks_body.
  eapply adds_bind.
  { apply adds_mapM with (Q := P). intros x Hx.
    eapply adds_bind; [apply adds_deref|]. intros b ->. apply adds_ret. by apply HP. }
  intros rows Hrows.
  eapply adds_bind; [by apply adds_Block_bulkCreate|]. intros _ _.
  eapply adds_bind.
  { apply adds_mapM with (Q := fun _ => True). intros x _.
    eapply adds_bind; [apply adds_deref|]. intros b _. by apply adds_ret. }
  intros crows _.
  eapply adds_bind; [apply adds_Chunk_bulkCreate|]. intros _ _.
  eapply adds_bind.
  { apply adds_mapM with (Q := fun _ => True). intros x _.
    eapply adds_weaken; [|apply adds_deref]. done. }
  intros bs _.
  eapply adds_bind.
  { apply adds_mapM with (Q := fun _ => True). intros b _.
    apply adds_save_transactions_of. }
  intros; by apply adds_ret.
Qed.

(** ** The pipeline adds blocks of the requested heights only *)

Lemma elem_of_down_from n : forall h h', h' ∈ down_from n h -> h - Z.of_nat n < h' <= h.
Proof.
  induction n as [|n IH]; intros h h'; cbn [down_from].
  - by intros ?%elem_of_nil.
  - intros [->|Hin%IH]%elem_of_cons; lia.
Qed.

Lemma elem_of_descending top bottom h :
  h ∈ descending top bottom -> bottom <= h <= top.
Proof.
  unfold descending, loop_iterations. intros Hin%elem_of_down_from. lia.
Qed.

Lemma fetched_of_request env h b :
  rpc_faithful env -> Val b ∈ fetched [request env h] -> Header.height (header b) = h.
Proof.
  intros Hrpc. unfold fetched, request. rewrite resolved_promiseResult.
  rewrite filter_cons, filter_nil. cbn [snd].
  destruct (nearRpc_block env h) as [v|e] eqn:Hb; cbn.
  - rewrite decide_True by done. cbn. intros <-%list_elem_of_singleton. by apply Hrpc.
  - destruct (decide _); [|by intros ?%elem_of_nil]. cbn.
    by intros ?%list_elem_of_singleton.
Qed.

Lemma elem_of_fetched b requests :
  b ∈ fetched requests -> exists q, q ∈ requests /\ b ∈ fetched [q].
Proof.
  induction requests as [|q requests IH]; [by intros ?%elem_of_nil|].
  rewrite fetched_cons. intros [H|H]%elem_of_app.
  - exists q. split; [left|done].
  - destruct (IH H) as (q' & ? & ?). exists q'. split; [by right|done].
Qed.

Lemma adds_saveBlocksFromRequests env lo hi requests :
  rpc_faithful env ->
  (forall q, q ∈ requests -> exists h, q = request env h /\ lo <= h <= hi) ->
  adds_only (in_range lo hi) (fun _ => True) (saveBlocksFromRequests env requests).
Proof.
  intros Hrpc Hreq w. rewrite saveBlocksFromRequests_eq.
  destruct (adds_saveBlocks (in_range lo hi) env (fetched requests)) with
    (w := log_all (failure_logs requests) w) as [Hg _].
  - intros b (q & Hq & Hb)%elem_of_fetched.
    destruct (Hreq q Hq) as (h & -> & Hh).
    unfold in_range, block_row. cbn. by rewrite (fetched_of_request env h b).
  - split; [|done]. destruct Hg as (extra & Hb & Hall). by exists extra.
Qed.

Lemma adds_syncNearcoreBlocks env top bottom :
  rpc_faithful env ->
  adds_only (in_range bottom top) (fun _ => True) (syncNearcoreBlocks env top bottom).
Proof.
  intros Hrpc. unfold syncNearcoreBlocks.
  destruct (top <? bottom); [by apply adds_ret|].
  eapply adds_bind; [apply adds_console_log|]. intros _ _.
  eapply adds_bind; [|intros; by apply adds_ret].
  apply adds_mapM with (Q := fun _ => True). intros batch Hbatch.
  apply adds_saveBlocksFromRequests; [done|]. intros q Hq.
  assert (Hin : q ∈ concat (batches env top bottom)).
  { apply list_elem_of_In, in_concat. exists batch. by rewrite <- !list_elem_of_In. }
  rewrite batches_cover in Hin. apply list_elem_of_fmap in Hin as (h & -> & Hh).
  exists h. split; [done|]. by apply elem_of_descending.
Qed.

(* ===================================================================== *)
(** * The bisection of the gap-sync pass                                  *)
(* ===================================================================== *)

Lemma count_between_app lo hi l1 l2 :
  Block_count_between lo hi (l1 ++ l2)
  = Block_count_between lo hi l1 + Block_count_between lo hi l2.
Proof. unfold Block_count_between. rewrite filter_app, length_app. lia. Qed.

Lemma count_between_nonneg lo hi l : 0 <= Block_count_between lo hi l.
Proof. unfold Block_count_between. lia. Qed.

Lemma count_between_outside lo hi lo' hi' l :
  Forall (in_range lo' hi') l -> (hi' < lo \/ hi < lo') ->
  Block_count_between lo hi l = 0.
Proof.
  intros Hall Hout. unfold Block_count_between.
  induction Hall as [|r l Hr Hall IH]; [done|].
  rewrite filter_cons. unfold in_range in Hr.
  destruct (decide _) as [Hin|]; [lia|done].
Qed.

Lemma count_between_empty lo hi l : hi < lo -> Block_count_between lo hi l = 0.
Proof.
  intros H. unfold Block_count_between. induction l as [|r l IH]; [done|].
  rewrite filter_cons. destruct (decide _); [lia|done].
Qed.

Lemma count_between_absent h l :
  h ∉ Block.height <$> l -> Block_count_between h h l = 0.
Proof.
  unfold Block_count_between. induction l as [|r l IH]; [done|].
  cbn [fmap list_fmap]. intros [Hne Hnotin]%not_elem_of_cons.
  rewrite filter_cons. destruct (decide _); [lia|by apply IH].
Qed.

Lemma count_between_unique h l :
  unique_heights l -> Block_count_between h h l <= 1.
Proof.
  unfold unique_heights.
  induction l as [|r l IH]; cbn [fmap list_fmap]; [done|].
  intros [Hnotin Hnd]%NoDup_cons.
  change (r :: l) with ([r] ++ l). rewrite count_between_app.
  destruct (decide (Block.height r = h)) as [<-|Hne].
  - rewrite (count_between_absent _ l) by done.
    unfold Block_count_between. rewrite filter_cons, filter_nil.
    destruct (decide _); cbn; lia.
  - specialize (IH Hnd).
    unfold Block_count_between at 1. rewrite filter_cons, filter_nil.
    destruct (decide _); [lia|]. cbn. lia.
Qed.

Lemma unique_within_grows lo hi lo' hi' w w' :
  unique_within lo hi w -> grows (in_range lo' hi') w w' -> hi' < lo ->
  unique_within lo hi w'.
Proof.
  intros Hu (extra & Hb & Hall) Hlt h Hh.
  rewrite Hb, count_between_app, (count_between_outside h h lo' hi' extra) by (done || lia).
  specialize (Hu h Hh). lia.
Qed.

Lemma unique_within_sub lo hi lo' hi' w :
  unique_within lo hi w -> lo <= lo' -> hi' <= hi -> unique_within lo' hi' w.
Proof. intros Hu ? ? h Hh. apply Hu. lia. Qed.

Lemma midHeight_bounds lo hi :
  lo < hi -> lo <= midHeight lo hi < hi.
Proof. unfold midHeight. intros H. split; [apply Z.div_le_lower_bound|apply Z.div_lt_upper_bound]; lia. Qed.

Lemma syncMissing_unfold fuel env lo hi w :
  syncMissingNearcoreBlocks (S fuel) env lo hi w =
  if hi <? lo then Some (w, Ok ())
  else if hi - lo + 1 =? Block_count_between lo hi (blocks (db w)) then Some (w, Ok ())
  else if (hi - lo <=? syncFetchQueueSize env)
          && (Block_count_between lo hi (blocks (db w)) =? 0)
  then Some (syncNearcoreBlocks env hi lo w)
  else match syncMissingNearcoreBlocks fuel env lo (midHeight lo hi) w with
       | Some (w', Ok _) =>
           syncMissingNearcoreBlocks fuel env (midHeight lo hi + 1) hi w'
       | other => other
       end.
Proof. reflexivity. Qed.

Lemma syncMissing_grows env fuel : forall lo hi w w' o,
  rpc_faithful env ->
  syncMissingNearcoreBlocks fuel env lo hi w = Some (w', o) ->
  grows (in_range lo hi) w w'.
Proof.
  induction fuel as [|fuel IH]; intros lo hi w w' o Hrpc; [done|].
  rewrite syncMissing_unfold.
  destruct (Z.ltb_spec hi lo) as [Hlt|Hle]; [intros [= <- <-]; by apply grows_refl|].
  destruct (_ =? _); [intros [= <- <-]; by apply grows_refl|].
  destruct (_ && _).
  { intros [= Heq]. destruct (adds_syncNearcoreBlocks env hi lo Hrpc w) as [Hg _].
    by rewrite Heq in Hg. }
  destruct (decide (lo = hi)) as [->|Hne].
  - (* a single height: both halves are sub-ranges of it *)
    assert (Hmid : midHeight hi hi = hi) by (unfold midHeight; replace (hi + hi) with (hi * 2) by lia; by apply Z.div_mul).
    rewrite Hmid.
    destruct (syncMissingNearcoreBlocks fuel env hi hi w) as [[w1 [[]|e]]|] eqn:Hl; [| |done].
    + intros Hr. apply IH in Hl; [|done]. apply IH in Hr; [|done].
      eapply grows_trans; [done|]. eapply grows_weaken; [|done].
      unfold in_range. intros; lia.
    + intros [= <- <-]. by apply IH in Hl.
  - pose proof (midHeight_bounds lo hi ltac:(lia)) as Hmid.
    destruct (syncMissingNearcoreBlocks fuel env lo _ w) as [[w1 [[]|e]]|] eqn:Hl; [| |done].
    + intros Hr. apply IH in Hl; [|done]. apply IH in Hr; [|done].
      eapply grows_trans; (eapply grows_weaken; [|done]); unfold in_range; intros; lia.
    + intros [= <- <-]. apply IH in Hl; [|done].
      eapply grows_weaken; [|done]. unfold in_range. intros; lia.
Qed.

Lemma syncMissing_returns env (Hfq : 0 <= syncFetchQueueSize env) (Hrpc : rpc_faithful env)
    (k : nat) : forall lo hi w,
  hi - lo + 1 <= 2 ^ Z.of_nat k ->
  unique_within lo hi w ->
  exists w', syncMissingNearcoreBlocks (S k) env lo hi w = Some (w', Ok ()).
Proof.
  induction k as [|k IH]; intros lo hi w Hsize Huniq.
  - rewrite syncMissing_unfold.
    destruct (Z.ltb_spec hi lo) as [Hlt|Hle]; [by eauto|].
    assert (lo = hi) as -> by (cbn in Hsize; lia).
    pose proof (Huniq hi ltac:(lia)) as H1.
    pose proof (count_between_nonneg hi hi (blocks (db w))) as H0.
    destruct (Z.eqb_spec (hi - hi + 1) (Block_count_between hi hi (blocks (db w))));
      [by eauto|].
    replace (Block_count_between hi hi (blocks (db w))) with 0 by lia.
    replace (hi - hi <=? syncFetchQueueSize env) with true by (symmetry; apply Z.leb_le; lia).
    cbn. destruct (syncNearcoreBlocks_total env hi hi w) as (w' & [] & ->). eauto.
  - rewrite syncMissing_unfold.
    destruct (Z.ltb_spec hi lo) as [Hlt|Hle]; [by eauto|].
    destruct (Z.eqb_spec (hi - lo + 1) (Block_count_between lo hi (blocks (db w))));
      [by eauto|].
    destruct (_ && _) eqn:Hsmall.
    { destruct (syncNearcoreBlocks_total env hi lo w) as (w' & [] & ->). eauto. }
    assert (Hlt : lo < hi).
    { destruct (decide (lo = hi)) as [->|]; [|lia].
      pose proof (Huniq hi ltac:(lia)) as Hc1.
      pose proof (count_between_nonneg hi hi (blocks (db w))) as Hc0.
      apply andb_false_iff in Hsmall as [Hs%Z.leb_gt|Hs%Z.eqb_neq]; lia. }
    pose proof (midHeight_bounds lo hi Hlt) as Hmid.
    assert (Hpow : 2 ^ Z.of_nat (S k) = 2 * 2 ^ Z.of_nat k).
    { rewrite Nat2Z.inj_succ, Z.pow_succ_r; lia. }
    assert (Hm2 : 2 * midHeight lo hi <= lo + hi < 2 * midHeight lo hi + 2).
    { unfold midHeight. pose proof (Z.div_mod (lo + hi) 2 ltac:(lia)).
      pose proof (Z.mod_pos_bound (lo + hi) 2 ltac:(lia)). lia. }
    destruct (IH lo (midHeight lo hi) w) as [w1 Hl].
    { lia. }
    { eapply unique_within_sub; [done|lia|lia]. }
    rewrite Hl.
    apply IH; [lia|].
    eapply unique_within_grows; [|eapply syncMissing_grows; done|lia].
    eapply unique_within_sub; [done|lia|lia].
Qed.

Lemma syncMissing_fuel_S env fuel : forall lo hi w r,
  syncMissingNearcoreBlocks fuel env lo hi w = Some r ->
  syncMissingNearcoreBlocks (S fuel) env lo hi w = Some r.
Proof.
  induction fuel as [|fuel IH]; intros lo hi w r; [done|].
  rewrite (syncMissing_unfold (S fuel)), (syncMissing_unfold fuel).
  destruct (_ <? _); [done|]. destruct (_ =? _); [done|]. destruct (_ && _); [done|].
  destruct (syncMissingNearcoreBlocks fuel env lo _ w) as [[w1 o]|] eqn:Hl; [|done].
  rewrite (IH _ _ _ _ Hl). destruct o as [[]|e]; [|done]. apply IH.
Qed.

Lemma syncMissing_fuel_mono env fuel fuel' lo hi w r :
  (fuel <= fuel')%nat ->
  syncMissingNearcoreBlocks fuel env lo hi w = Some r ->
  syncMissingNearcoreBlocks fuel' env lo hi w = Some r.
Proof.
  induction 1 as [|fuel' Hle IH]; [done|]. intros H. by apply syncMissing_fuel_S, IH.
Qed.

Lemma Sample_chain_faithful (joins_transaction : bool) :
  rpc_faithful (Sample.env joins_transaction).
Proof.
  intros h b. cbn. unfold Sample.chain. destruct (h =? 2); [done|].
  by intros [= <-].
Qed.

(** C9, as stated, fails: on a store that holds the heights 2, 3, 3 and 4
    (two blocks of height 3), the call on the single height 3 counts two
    rows where it expects one or none, so it calls itself on [[3, 3]]
    again, although [lo = hi], and that call does the same: no number of
    stack frames is enough for it to return, neither for the bisection on
    [[3, 3]] nor for the gap pass, which starts there. *)
Lemma bisection_loops_on_shared_height :
  Block.height <$> blocks (db Faulty.forked) = [2; 3; 3; 4]
  /\ (forall fuel,
        syncMissingNearcoreBlocks (S fuel) (Sample.env true) 3 3 Faulty.forked
        = match syncMissingNearcoreBlocks fuel (Sample.env true) 3 3 Faulty.forked with
          | Some (w', Ok _) =>
              syncMissingNearcoreBlocks fuel (Sample.env true) 4 3 w'
          | other => other
          end)
  /\ (forall fuel,
        syncMissingNearcoreBlocks fuel (Sample.env true) 3 3 Faulty.forked = None)
  /\ (forall fuel,
        syncMissingNearcoreState fuel (Sample.env true) Faulty.forked = None).
Proof.
  assert (Hcount : Block_count_between 3 3 (blocks (db Faulty.forked)) = 2)
    by (by vm_compute).
  assert (Hcall : forall fuel,
    syncMissingNearcoreBlocks (S fuel) (Sample.env true) 3 3 Faulty.forked
    = match syncMissingNearcoreBlocks fuel (Sample.env true) 3 3 Faulty.forked with
      | Some (w', Ok _) => syncMissingNearcoreBlocks fuel (Sample.env true) 4 3 w'
      | other => other
      end).
  { intros fuel. rewrite syncMissing_unfold, Hcount. reflexivity. }
  assert (Hnone : forall fuel,
    syncMissingNearcoreBlocks fuel (Sample.env true) 3 3 Faulty.forked = None).
  { induction fuel as [|fuel IH]; [done|]. by rewrite Hcall, IH. }
  split; [by vm_compute|]. split; [done|]. split; [done|].
  intros fuel. unfold syncMissingNearcoreState.
  destruct (Block_findOne_highest _) as [latest|] eqn:Hhi; [|by vm_compute in Hhi].
  destruct (Block_findOne_lowest _) as [oldest|] eqn:Hlo; [|by vm_compute in Hlo].
  assert (Block.height latest = 4) as -> by (vm_compute in Hhi; by injection Hhi as <-).
  assert (Block.height oldest = 2) as -> by (vm_compute in Hlo; by injection Hlo as <-).
  apply Hnone.
Qed.

(** C9, amended: for heights [lo <= hi] and a store in which no two blocks
    share a height (with a non-negative FETCH_QUEUE and a chain node that
    answers with the block of the height asked for), the bisection
    returns.  Its
    nested calls never go deeper than ceil(log2(hi - lo + 1)) levels below
    the first call, which is at most log2(hi - lo + 1) + 1: the call stack
    never holds more than that many frames plus one.  On a single height
    the function returns without calling itself; when [lo < hi] both halves
    [[lo, mid]] and [[mid + 1, hi]] are non-empty and strictly smaller than
    [[lo, hi]]. *)
Theorem bisection_terminates (env : Env) (lo hi : Z) (w : World) :
  lo <= hi ->
  0 <= syncFetchQueueSize env ->
  rpc_faithful env ->
  unique_heights (blocks (db w)) ->
  (forall fuel, (Z.to_nat (Z.log2_up (hi - lo + 1)) < fuel)%nat ->
     exists w', syncMissingNearcoreBlocks fuel env lo hi w = Some (w', Ok ()))
  /\ Z.log2_up (hi - lo + 1) <= Z.log2 (hi - lo + 1) + 1
  /\ (lo = hi ->
      exists w', syncMissingNearcoreBlocks 1 env lo hi w = Some (w', Ok ()))
  /\ (lo < hi ->
      lo <= midHeight lo hi /\ midHeight lo hi + 1 <= hi
      /\ midHeight lo hi - lo + 1 < hi - lo + 1
      /\ hi - (midHeight lo hi + 1) + 1 < hi - lo + 1).
Proof.
  intros Hle Hfq Hrpc Huniq.
  assert (Hw : unique_within lo hi w).
  { intros h _. by apply count_between_unique. }
  assert (Hret : exists w',
    syncMissingNearcoreBlocks (S (Z.to_nat (Z.log2_up (hi - lo + 1)))) env lo hi w
    = Some (w', Ok ())).
  { apply syncMissing_returns; [done..| |done].
    rewrite Z2Nat.id by apply Z.log2_up_nonneg.
    apply Z.log2_log2_up_spec. lia. }
  repeat split.
  - intros fuel Hfuel. destruct Hret as [w' Hw']. exists w'.
    eapply syncMissing_fuel_mono; [|done]. lia.
  - apply Z.le_log2_up_succ_log2.
  - intros ->. apply (syncMissing_returns env Hfq Hrpc 0); [cbn; lia|done].
  - by apply midHeight_bounds.
  - pose proof (midHeight_bounds lo hi H). lia.
  - pose proof (midHeight_bounds lo hi H). lia.
  - pose proof (midHeight_bounds lo hi H). lia.
Qed.

Lemma bisection_terminates_witness :
  exists w',
    syncMissingNearcoreBlocks 3 (Sample.env true) 2 4 (Sample.world_with [1; 3; 5])
    = Some (w', Ok ()).
Proof.
  destruct (bisection_terminates (Sample.env true) 2 4 (Sample.world_with [1; 3; 5]))
    as (H & _).
  - lia.
  - cbn. lia.
  - apply Sample_chain_faithful.
  - unfold unique_heights. by compute_done.
  - apply (H 3%nat). vm_compute. lia.
Defined.

(** The third scenario of the specification: the store holds 1, 3 and 5
    and FETCH_QUEUE is 2; the pass fetches 2 and 4. *)
Example gap_sync_fills_2_and_4 :
  let env := {| syncFetchQueueSize := 2; syncSaveQueueSize := 2;
                bulkDbUpdateSize := 5;
                nearRpc_block := fun h => Fulfilled (Val (Sample.block h (Sample.hash_at h) []));
                bs58_encode := fun _ => ""; cls := true;
                db_fault := fun _ => false |} in
  (fun r => Block.height <$> blocks (db (fst r)))
    <$> syncMissingNearcoreState 3 env (Sample.world_with [1; 3; 5])
  = Some [1; 3; 5; 2; 4].
Proof. vm_compute. reflexivity. Qed.

(** ** The pass against its specification *)

Lemma spec_process_unfold fuel env lo hi w :
  spec_process_range (S fuel) env lo hi w =
  if Block_count_between lo hi (blocks (db w)) =? hi - lo + 1 then Some (w, Ok ())
  else if (hi - lo <=? syncFetchQueueSize env)
          && (Block_count_between lo hi (blocks (db w)) =? 0)
  then Some (syncNearcoreBlocks env hi lo w)
  else match spec_process_range fuel env lo ((lo + hi) `div` 2) w with
       | Some (w', Ok _) => spec_process_range fuel env ((lo + hi) `div` 2 + 1) hi w'
       | other => other
       end.
Proof. reflexivity. Qed.

Lemma syncMissing_is_spec env fuel :
  0 <= syncFetchQueueSize env ->
  forall lo hi w,
    syncMissingNearcoreBlocks fuel env lo hi w = spec_process_range fuel env lo hi w.
Proof.
  intros Hfq. induction fuel as [|fuel IH]; intros lo hi w; [done|].
  rewrite syncMissing_unfold, spec_process_unfold. unfold midHeight.
  destruct (Z.ltb_spec hi lo) as [Hlt|Hle].
  - rewrite count_between_empty by done.
    destruct (Z.eqb_spec 0 (hi - lo + 1)); [done|].
    replace (hi - lo <=? syncFetchQueueSize env) with true
      by (symmetry; apply Z.leb_le; lia).
    cbn. unfold syncNearcoreBlocks.
    by replace (hi <? lo) with true by (symmetry; apply Z.ltb_lt; lia).
  - rewrite (Z.eqb_sym (hi - lo + 1)).
    destruct (_ =? _); [done|]. destruct (_ && _); [done|].
    rewrite IH. destruct (spec_process_range fuel env lo _ w) as [[w1 [[]|e]]|]; [|done..].
    apply IH.
Qed.

Lemma findOne_highest_max rows :
  match Block_findOne_highest rows with
  | None => rows = []
  | Some r => forall d, foldr Z.max d (Block.height <$> rows) = Z.max d (Block.height r)
  end.
Proof.
  induction rows as [|r rows IH]; [done|]. cbn [Block_findOne_highest].
  destruct (Block_findOne_highest rows) as [r'|].
  - destruct (Z.ltb_spec (Block.height r') (Block.height r)); intros d; cbn; rewrite IH; lia.
  - subst rows. intros d. cbn. lia.
Qed.

Lemma findOne_lowest_min rows :
  match Block_findOne_lowest rows with
  | None => rows = []
  | Some r => forall d, foldr Z.min d (Block.height <$> rows) = Z.min d (Block.height r)
  end.
Proof.
  induction rows as [|r rows IH]; [done|]. cbn [Block_findOne_lowest].
  destruct (Block_findOne_lowest rows) as [r'|].
  - destruct (Z.ltb_spec (Block.height r) (Block.height r')); intros d; cbn; rewrite IH; lia.
  - subst rows. intros d. cbn. lia.
Qed.

Lemma findOne_highest_is_max rows r :
  Block_findOne_highest rows = Some r -> Block.height r = max_stored_height rows.
Proof.
  intros Hr. pose proof (findOne_highest_max rows) as H. rewrite Hr in H.
  unfold max_stored_height. destruct rows as [|r0 rows]; [done|].
  rewrite H. cbn [head fmap option_fmap option_map default].
  specialize (H (Block.height r)). cbn in H. cbn. lia.
Qed.

Lemma findOne_lowest_is_min rows r :
  Block_findOne_lowest rows = Some r -> Block.height r = min_stored_height rows.
Proof.
  intros Hr. pose proof (findOne_lowest_min rows) as H. rewrite Hr in H.
  unfold min_stored_height. destruct rows as [|r0 rows]; [done|].
  rewrite H. cbn [head fmap option_fmap option_map default].
  specialize (H (Block.height r)). cbn in H. cbn. lia.
Qed.

(** C3: the pass does what the specification describes.  With a
    non-negative FETCH_QUEUE, [syncMissingNearcoreState] and the pass as
    worded in the specification ([lo = min + 1], [hi = max - 1], nothing
    with fewer than two rows, then the three cases on [[lo, hi]]) give the
    same result from every store, with every amount of stack; with fewer
    than two rows the pass changes nothing. *)
Theorem gap_sync_refines_spec (env : Env) (fuel : nat) (w : World) :
  0 <= syncFetchQueueSize env ->
  syncMissingNearcoreState (S fuel) env w = spec_gap_sync (S fuel) env w
  /\ ((length (blocks (db w)) < 2)%nat ->
      syncMissingNearcoreState (S fuel) env w = Some (w, Ok ())).
Proof.
  intros Hfq.
  assert (Hsmall : (length (blocks (db w)) < 2)%nat ->
                   syncMissingNearcoreState (S fuel) env w = Some (w, Ok ())).
  { unfold syncMissingNearcoreState.
    destruct (blocks (db w)) as [|r [|r' rows]]; cbn [length]; [done| |lia].
    intros _. cbn [Block_findOne_highest Block_findOne_lowest].
    rewrite syncMissing_unfold.
    by replace (_ <? _) with true by (symmetry; apply Z.ltb_lt; lia). }
  split; [|done]. unfold spec_gap_sync.
  destruct (Z.ltb_spec (Z.of_nat (length (blocks (db w)))) 2) as [Hlt|Hge].
  { apply Hsmall. lia. }
  unfold syncMissingNearcoreState.
  pose proof (findOne_highest_is_max (blocks (db w))) as Hmax.
  pose proof (findOne_lowest_is_min (blocks (db w))) as Hmin.
  pose proof (findOne_highest_max (blocks (db w))) as Hsome.
  pose proof (findOne_lowest_min (blocks (db w))) as Hsome'.
  destruct (Block_findOne_highest _) as [latest|]; [|rewrite Hsome in Hge; cbn in Hge; lia].
  destruct (Block_findOne_lowest _) as [oldest|]; [|rewrite Hsome' in Hge; cbn in Hge; lia].
  rewrite (Hmax latest eq_refl), (Hmin oldest eq_refl).
  by apply syncMissing_is_spec.
Qed.

Lemma gap_sync_refines_spec_witness :
  syncMissingNearcoreState 3 (Sample.env true) (Sample.world_with [1; 3; 5])
  = spec_gap_sync 3 (Sample.env true) (Sample.world_with [1; 3; 5]).
Proof.
  apply (gap_sync_refines_spec (Sample.env true) 2 (Sample.world_with [1; 3; 5])).
  cbn. lia.
Defined.

(* ===================================================================== *)
(** * The batches of the pipeline                                         *)
(* ===================================================================== *)





(* ===================================================================== *)
(** * What [saveBlocks] stores and prints                                  *)
(* ===================================================================== *)

Lemma ret_bind {A B} (a : A) (f : A -> M B) (w : World) :
  ((mret a : M A) ≫= f) w = f a w.
Proof. reflexivity. Qed.

Lemma deref_bind {A B} (f : A -> B) (a : A) (w : World) :
  (b ← deref (Val a); (mret (f b) : M B)) w = (w, Ok (f a)).
Proof. reflexivity. Qed.

Lemma mapM_deref_Val {A B} (f : A -> B) (l : list A) (w : World) :
  mapM (fun x => b ← deref x; mret (f b)) (Val <$> l) w = (w, Ok (f <$> l)).
Proof.
  induction l as [|a l IH]; [done|].
  cbn [fmap list_fmap]. rewrite mapM_cons, bind_unfold, deref_bind, bind_unfold.
  cbn [fmap list_fmap] in IH. by rewrite IH.
Qed.


Lemma saveBlocks_body_keeps_console env blocksInfo :
  keeps console (saveBlocks_body env blocksInfo).
Proof.
  assert (Hderef : forall A (x : js A), keeps console (deref x)).
  { intros A [|a]; [apply keeps_throw|apply keeps_ret]. }
  assert (Hissue : keeps console (issue_statement env)).
  { intros w. unfold issue_statement. by destruct (db_fault _ _). }
  unfold saveBlocks_body.
  apply keeps_bind.
  { apply keeps_mapM. intros x. apply keeps_bind; [done|]. intros; apply keeps_ret. }
  intros rows. apply keeps_bind.
  { unfold Block_bulkCreate, bulkCreate. apply keeps_bind; [done|].
    intros _ w. unfold insert_rows. by destruct (decide _). }
  intros _. apply keeps_bind.
  { apply keeps_mapM. intros x. apply keeps_bind; [done|]. intros; apply keeps_ret. }
  intros crows. apply keeps_bind.
  { unfold Chunk_bulkCreate, bulkCreate. apply keeps_bind; [done|].
    intros _ w. unfold insert_rows. by destruct (decide _). }
  intros _. apply keeps_bind; [by apply keeps_mapM|].
  intros bs. apply keeps_bind; [|intros; apply keeps_ret].
  apply keeps_mapM. intros b. unfold save_transactions_of.
  apply keeps_bind; [|done].
  apply keeps_mapM. intros tx. unfold transaction_row.
  destruct (Tx.body tx) as [|[kind args] ?]; [apply keeps_throw|apply keeps_ret].
Qed.

(** X2: [saveBlocks] never throws, whatever the batch and whatever the
    database does: it returns normally, and all it prints is at most two
    lines ["Failed to save a bulk of blocks due to"] after the lines
    already on the console. *)
Theorem saveBlocks_only_warns (env : Env) (blocksInfo : list (js BlockInfo)) (w : World) :
  snd (saveBlocks env blocksInfo w) = Ok ()
  /\ exists lines,
       console (fst (saveBlocks env blocksInfo w)) = console w ++ lines
       /\ (length lines <= 2)%nat
       /\ Forall is_save_warning lines.
Proof.
  pose proof (saveBlocks_body_keeps_console env blocksInfo w) as Hbody.
  assert (Hwarn : forall e, is_save_warning (WarnSaveFailed e)) by (intros e; by exists e).
  unfold saveBlocks, try_catch, sequelize_transaction, warn_save_failed, issue_statement,
    rollback.
  destruct (saveBlocks_body env blocksInfo w) as [w1 [[]|e]]; cbn in *;
    destruct (db_fault env (statements w1)); cbn; (split; [done|]).
  - exists [WarnSaveFailed DatabaseError].
    split; [destruct (cls env); cbn; by rewrite Hbody|].
    split; [cbn; lia|]. by repeat constructor.
  - exists []. rewrite app_nil_r. split; [done|]. split; [cbn; lia|constructor].
  - exists [WarnSaveFailed e; WarnSaveFailed DatabaseError].
    split; [destruct (cls env); cbn; by rewrite Hbody, <- app_assoc|].
    split; [cbn; lia|]. by repeat constructor.
  - exists [WarnSaveFailed e]. rewrite Hbody.
    split; [done|]. split; [cbn; lia|]. by repeat constructor.
Qed.

Lemma mapM_deref_id {A} (l : list A) (w : World) :
  mapM deref (Val <$> l) w = (w, Ok l).
Proof.
  induction l as [|a l IH]; [done|].
  cbn [fmap list_fmap]. rewrite mapM_cons. cbn [deref]. rewrite ret_bind, bind_unfold.
  cbn [fmap list_fmap] in IH. by rewrite IH.
Qed.

Lemma bulkCreate_ok {R} env (key : R -> string) table set_table rows w :
  db_fault env (statements w) = false ->
  NoDup (key <$> (table (db w) ++ rows)) ->
  (forall t s, table (set_table t s) = t) ->
  bulkCreate env key table set_table rows w
  = (mkWorld (set_table (table (db w) ++ rows) (db w)) (console w) (detached w)
             (S (statements w)), Ok ()).
Proof.
  intros Hok Hnd _. unfold bulkCreate. rewrite bind_unfold.
  unfold issue_statement. rewrite Hok. unfold insert_rows. cbn.
  by rewrite decide_True.
Qed.

Lemma mapM_transaction_row env blockInfo txs w :
  Forall (fun tx => Tx.body tx <> []) txs ->
  exists rows,
    mapM (transaction_row env blockInfo) txs w = (w, Ok rows)
    /\ Transaction.hash <$> rows = (fun tx => toBase58 env (Tx.hash tx)) <$> txs
    /\ Forall (fun row => Transaction.chunkHash row = stored_hash env blockInfo) rows.
Proof.
  induction 1 as [|tx txs Htx Htxs (rows & IH & Hh & Hc)].
  - by exists [].
  - rewrite mapM_cons, bind_unfold. unfold transaction_row at 1.
    destruct (Tx.body tx) as [|[kind args] rest]; [done|].
    eexists (_ :: rows). cbn -[mapM]. rewrite bind_unfold, IH. cbn.
    split; [reflexivity|].
    split; [by rewrite Hh|]. by constructor.
Qed.

Lemma mapM_save_transactions_of env bs : forall w,
  Forall (fun b => Forall (fun tx => Tx.body tx <> []) (transactions b)) bs ->
  exists queued units,
    mapM (save_transactions_of env) bs w
    = (mkWorld (db w) (console w) (detached w ++ queued) (statements w), Ok units)
    /\ (fun rows => Transaction.hash <$> rows) <$> queued
       = (fun b => (fun tx => toBase58 env (Tx.hash tx)) <$> transactions b) <$> bs
    /\ Forall2 (fun b rows =>
                  Forall (fun row => Transaction.chunkHash row = stored_hash env b) rows)
               bs queued.
Proof.
  induction bs as [|b bs IH]; intros w Hbs.
  - exists [], []. destruct w. cbn. by rewrite app_nil_r.
  - apply Forall_cons in Hbs as [Hb Hbs].
    rewrite mapM_cons, bind_unfold. unfold save_transactions_of at 1.
    rewrite bind_unfold.
    destruct (mapM_transaction_row env b (transactions b) w Hb) as (rows & -> & Hh & Hc).
    unfold Transaction_bulkCreate_detached at 1.
    rewrite bind_unfold.
    destruct (IH (mkWorld (db w) (console w) (detached w ++ [rows]) (statements w)) Hbs)
      as (queued & units & -> & Hq & Hcq).
    cbn. exists (rows :: queued), (() :: units).
    split; [by rewrite <- app_assoc|]. split; [cbn; by rewrite Hh, Hq|]. by constructor.
Qed.

(** X3: when none of the three statements it awaits (two INSERTs and the
    COMMIT) fails, no hash of the batch is stored yet or repeated, and
    every transaction has a kind, [saveBlocks] appends one Block row and
    one Chunk row for every block of the batch, in the order of the batch,
    prints nothing and leaves the Node table as it was; the rows of the
    transactions are handed to the ORM without being awaited, one INSERT
    for every block that has transactions, each row carrying the hash of
    its block as [chunkHash].  (Nothing is said of the Transaction table:
    what it holds when [saveBlocks] returns depends on how far those
    INSERTs have got.) *)
Theorem saveBlocks_stores_batch (env : Env) (bs : list BlockInfo) (w : World) :
  db_fault env (statements w) = false ->
  db_fault env (S (statements w)) = false ->
  db_fault env (S (S (statements w))) = false ->
  NoDup (Block.hash <$> (blocks (db w) ++ (block_row env <$> bs))) ->
  NoDup (Chunk.hash <$> (chunks (db w) ++ (chunk_row env <$> bs))) ->
  Forall (fun b => Forall (fun tx => Tx.body tx <> []) (transactions b)) bs ->
  let w' := fst (saveBlocks env (Val <$> bs) w) in
  blocks (db w') = blocks (db w) ++ (block_row env <$> bs)
  /\ chunks (db w') = chunks (db w) ++ (chunk_row env <$> bs)
  /\ nodes (db w') = nodes (db w)
  /\ console w' = console w
  /\ exists queued,
       detached w' = detached w ++ queued
       /\ (fun rows => Transaction.hash <$> rows) <$> queued
          = (fun b => (fun tx => toBase58 env (Tx.hash tx)) <$> transactions b)
              <$> filter has_transactions bs
       /\ Forall2 (fun b rows =>
                     Forall (fun row => Transaction.chunkHash row = stored_hash env b) rows)
                  (filter has_transactions bs) queued.
Proof.
  intros H0 H1 H2 Hblocks Hchunks Hbodies. cbn zeta.
  assert (Hbody : exists queued units,
    saveBlocks_body env (Val <$> bs) w
    = (mkWorld (mkStore (blocks (db w) ++ (block_row env <$> bs))
                        (chunks (db w) ++ (chunk_row env <$> bs))
                        (transactions_table (db w)) (nodes (db w)))
               (console w) (detached w ++ queued) (S (S (statements w))), Ok units)
    /\ (fun rows => Transaction.hash <$> rows) <$> queued
       = (fun b => (fun tx => toBase58 env (Tx.hash tx)) <$> transactions b)
           <$> filter has_transactions bs
    /\ Forall2 (fun b rows =>
                  Forall (fun row => Transaction.chunkHash row = stored_hash env b) rows)
               (filter has_transactions bs) queued).
  { unfold saveBlocks_body.
    rewrite bind_unfold, mapM_deref_Val, bind_unfold.
    unfold Block_bulkCreate. rewrite bulkCreate_ok; [|done..].
    rewrite bind_unfold, mapM_deref_Val, bind_unfold.
    unfold Chunk_bulkCreate. rewrite bulkCreate_ok; [|done..].
    rewrite bind_unfold, mapM_deref_id, bind_unfold.
    match goal with |- context [mapM (save_transactions_of env) ?l ?w0] =>
      destruct (mapM_save_transactions_of env l w0) as (queued & units & -> & Hq & Hc)
    end.
    { apply Forall_forall. intros b [_ Hb]%list_elem_of_filter.
      by eapply Forall_forall in Hbodies. }
    cbn. exists queued, (). by repeat split. }
  destruct Hbody as (queued & [] & Hbody & Hq & Hc).
  unfold saveBlocks, try_catch, sequelize_transaction. rewrite Hbody.
  unfold issue_statement. cbn. rewrite H2. cbn.
  repeat split. by exists queued.
Qed.

Lemma saveBlocks_stores_batch_witness :
  blocks (db (fst (saveBlocks (Sample.env true)
                     [Val (Sample.block 7 "block-7" [Sample.send_money])] empty_world)))
  = [block_row (Sample.env true) (Sample.block 7 "block-7" [Sample.send_money])].
Proof.
  refine (proj1 (saveBlocks_stores_batch (Sample.env true)
                   [Sample.block 7 "block-7" [Sample.send_money]] empty_world
                   _ _ _ _ _ _)).
  - reflexivity.
  - reflexivity.
  - reflexivity.
  - compute_done.
  - compute_done.
  - repeat constructor; discriminate.
Defined.



(* ===================================================================== *)
(** * A table the block sync never writes                                 *)
(* ===================================================================== *)

Lemma keeps_deref {A X} (f : World -> X) (x : js A) : keeps f (deref x).
Proof. destruct x; [apply keeps_throw|apply keeps_ret]. Qed.

Lemma keeps_issue_statement {X} (f : Store -> X) env :
  keeps (fun w => f (db w)) (issue_statement env).
Proof. intros w. unfold issue_statement. by destruct (db_fault _ _). Qed.

Lemma keeps_save_transactions_of {X} (f : Store -> X) env b :
  keeps (fun w => f (db w)) (save_transactions_of env b).
Proof.
  unfold save_transactions_of. apply keeps_bind; [|done].
  apply keeps_mapM. intros tx. unfold transaction_row.
  destruct (Tx.body tx) as [|[kind args] ?]; [apply keeps_throw|apply keeps_ret].
Qed.

(** What follows the INSERT of the blocks leaves every table but Chunk
    alone. *)
Lemma keeps_after_blocks {X} (f : Store -> X) env blocksInfo :
  (forall s t, f (mkStore (blocks s) t (transactions_table s) (nodes s)) = f s) ->
  keeps (fun w => f (db w))
    (rows ← mapM (fun blockInfo => b ← deref blockInfo; mret (chunk_row env b)) blocksInfo;
     Chunk_bulkCreate env rows;;
     bs ← mapM deref blocksInfo;
     mapM (save_transactions_of env)
          (filter (fun blockInfo => 0 < Z.of_nat (length (transactions blockInfo))) bs);;
     mret ()).
Proof.
  intros Hchunks.
  apply keeps_bind.
  { apply keeps_mapM. intros x. apply keeps_bind; [apply keeps_deref|]. intros; apply keeps_ret. }
  intros crows. apply keeps_bind.
  { unfold Chunk_bulkCreate, bulkCreate. apply keeps_bind; [apply keeps_issue_statement|].
    intros _ w. unfold insert_rows. destruct (decide _); [|done]. cbn. apply Hchunks. }
  intros _. apply keeps_bind; [apply keeps_mapM; intros; apply keeps_deref|].
  intros bs. apply keeps_bind; [|intros; apply keeps_ret].
  apply keeps_mapM. intros b. apply keeps_save_transactions_of.
Qed.

Lemma saveBlocks_body_keeps {X} (f : Store -> X) env blocksInfo :
  (forall s t, f (mkStore t (chunks s) (transactions_table s) (nodes s)) = f s) ->
  (forall s t, f (mkStore (blocks s) t (transactions_table s) (nodes s)) = f s) ->
  keeps (fun w => f (db w)) (saveBlocks_body env blocksInfo).
Proof.
  intros Hblocks Hchunks. unfold saveBlocks_body.
  apply keeps_bind.
  { apply keeps_mapM. intros x. apply keeps_bind; [apply keeps_deref|]. intros; apply keeps_ret. }
  intros rows. apply keeps_bind.
  { unfold Block_bulkCreate, bulkCreate. apply keeps_bind; [apply keeps_issue_statement|].
    intros _ w. unfold insert_rows. destruct (decide _); [|done]. cbn. apply Hblocks. }
  intros _. by apply keeps_after_blocks.
Qed.

Lemma saveBlocks_keeps {X} (f : Store -> X) env blocksInfo :
  (forall s t, f (mkStore t (chunks s) (transactions_table s) (nodes s)) = f s) ->
  (forall s t, f (mkStore (blocks s) t (transactions_table s) (nodes s)) = f s) ->
  keeps (fun w => f (db w)) (saveBlocks env blocksInfo).
Proof.
  intros Hblocks Hchunks. unfold saveBlocks, warn_save_failed.
  apply keeps_try_catch; [|done]. intros w. unfold sequelize_transaction.
  pose proof (keeps_try_catch (fun w => f (db w)) (saveBlocks_body env blocksInfo)
                (fun error => console_log (WarnSaveFailed error))
                (saveBlocks_body_keeps f env blocksInfo Hblocks Hchunks)
                ltac:(done) w) as Hcb.
  assert (Hroll : forall w', f (db w') = f (db w) ->
            f (db (rollback env (db w) w')) = f (db w)).
  { intros w' Hw'. unfold rollback. by destruct (cls env). }
  destruct (try_catch _ _ w) as [w1 [[]|e]]; cbn [fst] in *; [|by apply Hroll].
  pose proof (keeps_issue_statement f env w1) as Hst.
  destruct (issue_statement env w1) as [w2 [[]|e]]; cbn [fst] in *; [congruence|].
  apply Hroll. congruence.
Qed.

Lemma syncNearcoreBlocks_keeps {X} (f : Store -> X) env top bottom :
  (forall s t, f (mkStore t (chunks s) (transactions_table s) (nodes s)) = f s) ->
  (forall s t, f (mkStore (blocks s) t (transactions_table s) (nodes s)) = f s) ->
  keeps (fun w => f (db w)) (syncNearcoreBlocks env top bottom).
Proof.
  intros Hblocks Hchunks. unfold syncNearcoreBlocks.
  destruct (top <? bottom); [done|].
  apply keeps_bind; [done|]. intros _.
  apply keeps_bind; [|done]. apply keeps_mapM. intros batch w.
  rewrite saveBlocksFromRequests_eq.
  by rewrite (saveBlocks_keeps f env _ Hblocks Hchunks).
Qed.

Lemma syncMissing_keeps {X} (f : Store -> X) env fuel :
  (forall s t, f (mkStore t (chunks s) (transactions_table s) (nodes s)) = f s) ->
  (forall s t, f (mkStore (blocks s) t (transactions_table s) (nodes s)) = f s) ->
  forall lo hi w w' o,
    syncMissingNearcoreBlocks fuel env lo hi w = Some (w', o) -> f (db w') = f (db w).
Proof.
  intros Hblocks Hchunks. induction fuel as [|fuel IH]; intros lo hi w w' o; [done|].
  rewrite syncMissing_unfold.
  destruct (_ <? _); [by intros [= <- <-]|].
  destruct (_ =? _); [by intros [= <- <-]|].
  destruct (_ && _).
  { intros [= Heq]. pose proof (syncNearcoreBlocks_keeps f env hi lo Hblocks Hchunks w) as H.
    by rewrite Heq in H. }
  destruct (syncMissingNearcoreBlocks fuel env lo _ w) as [[w1 [[]|e]]|] eqn:Hl; [| |done].
  - intros Hr. apply IH in Hl. apply IH in Hr. congruence.
  - intros [= <- <-]. by apply IH in Hl.
Qed.

Lemma run_detached_keeps_nodes env w : nodes (db (run_detached env w)) = nodes (db w).
Proof.
  unfold run_detached.
  change (nodes (db w))
    with (nodes (db (mkWorld (db w) (console w) [] (statements w)))).
  generalize (mkWorld (db w) (console w) [] (statements w)).
  induction (detached w) as [|rows queue IH]; intros w0; [done|].
  cbn [foldl]. rewrite IH.
  unfold Transaction_bulkCreate, bulkCreate.
  apply (keeps_bind (fun w => nodes (db w))); [apply (keeps_issue_statement nodes)|].
  intros _ w1. unfold insert_rows. by destruct (decide _).
Qed.

(** X6: neither the pipeline nor the gap pass ever writes the Node table,
    whatever the chain node answers and whatever the database does; nor do
    the Transaction INSERTs they leave behind, whenever those run:
    telemetry rows are out of the reach of the block sync. *)
Theorem sync_leaves_nodes (env : Env) (fuel : nat) (top bottom : Z) (w : World) :
  (let w' := fst (syncNearcoreBlocks env top bottom w) in
   nodes (db w') = nodes (db w)
   /\ nodes (db (run_detached env w')) = nodes (db w))
  /\ (forall w' o,
        syncMissingNearcoreState fuel env w = Some (w', o) ->
        nodes (db w') = nodes (db w)
        /\ nodes (db (run_detached env w')) = nodes (db w)).
Proof.
  assert (Hpipeline : nodes (db (fst (syncNearcoreBlocks env top bottom w)))
                      = nodes (db w))
    by (by apply (syncNearcoreBlocks_keeps nodes)).
  split.
  - cbn zeta. by rewrite run_detached_keeps_nodes.
  - intros w' o. unfold syncMissingNearcoreState. rewrite run_detached_keeps_nodes.
    destruct (Block_findOne_highest _); [|by intros [= <- <-]].
    destruct (Block_findOne_lowest _); [|by intros [= <- <-]].
    intros H. by apply (syncMissing_keeps nodes) in H.
Qed.

(* ===================================================================== *)
(** * A healthy database and a chain that serves every height             *)
(* ===================================================================== *)

Lemma Healthy_healthy : healthy Healthy.env.
Proof. by intros n. Qed.

Lemma Healthy_serves : serves Healthy.env Healthy.chain.
Proof. by intros h. Qed.

Lemma Healthy_heights : chain_heights Healthy.chain.
Proof. by intros h. Qed.

Lemma Healthy_distinct : distinct_hashes Healthy.env Healthy.chain.
Proof.
  intros h h'. unfold stored_hash, Healthy.chain, Sample.hash_at. cbn.
  intros H. injection H as H. by apply pretty_Z_inj in H.
Qed.

Lemma saveBlocks_blocks_healthy env bs w :
  healthy env ->
  NoDup (Block.hash <$> (blocks (db w) ++ (block_row env <$> bs))) ->
  blocks (db (fst (saveBlocks env (Val <$> bs) w)))
  = blocks (db w) ++ (block_row env <$> bs).
Proof.
  intros Hh Hnd. rewrite saveBlocks_commits_body by apply Hh.
  unfold saveBlocks_body.
  rewrite bind_unfold, mapM_deref_Val, bind_unfold.
  unfold Block_bulkCreate. rewrite bulkCreate_ok; [|apply Hh|done..].
  by rewrite (keeps_after_blocks blocks).
Qed.

Lemma fetched_served env chain heights :
  serves env chain ->
  fetched (request env <$> heights) = (fun h => Val (chain h)) <$> heights.
Proof.
  intros Hs. induction heights as [|h heights IH]; [done|].
  cbn [fmap list_fmap]. rewrite fetched_cons, IH. f_equal.
  unfold fetched, request. rewrite resolved_promiseResult, Hs.
  rewrite filter_cons, filter_nil. cbn. by rewrite decide_True.
Qed.


Lemma mapM_batches_healthy env chain :
  healthy env -> serves env chain ->
  forall (groups : list (list Z)) (w : World),
    NoDup (Block.hash <$> (blocks (db w) ++ (chain_row env chain <$> concat groups))) ->
    blocks (db (fst (mapM (saveBlocksFromRequests env)
                          ((fun heights : list Z => request env <$> heights) <$> groups) w)))
    = blocks (db w) ++ (chain_row env chain <$> concat groups).
Proof.
  intros Hh Hs groups. induction groups as [|heights groups IH]; intros w Hnd.
  - cbn. by rewrite app_nil_r.
  - cbn [fmap list_fmap concat] in *. rewrite mapM_cons, bind_unfold.
    rewrite (fmap_app (chain_row env chain)), app_assoc in Hnd.
    assert (Hsave : blocks (db (fst (saveBlocksFromRequests env (request env <$> heights) w)))
                    = blocks (db w) ++ (chain_row env chain <$> heights)).
    { rewrite saveBlocksFromRequests_eq, (fetched_served env chain) by done.
      rewrite (list_fmap_compose chain Val).
      rewrite saveBlocks_blocks_healthy; [|done|]; rewrite <- list_fmap_compose; [done|].
      rewrite fmap_app in Hnd. by apply NoDup_app in Hnd as [? _]. }
    destruct (saveBlocksFromRequests_total env (request env <$> heights) w)
      as (w1 & [] & Heq).
    rewrite Heq in *. cbn [fst] in Hsave. rewrite bind_unfold.
    specialize (IH w1). rewrite Hsave in IH. specialize (IH Hnd).
    destruct (total_mapM (saveBlocksFromRequests env)
                ((fun heights : list Z => request env <$> heights) <$> groups)
                (saveBlocksFromRequests_total env) w1) as (w2 & units & Heq2).
    rewrite Heq2 in *. cbn [fst mret M_ret] in *. by rewrite IH, fmap_app, <- app_assoc.
Qed.

Lemma requests_of_heights env (groups : list (list Request)) :
  Forall (fun q => q = request env (fst q)) (concat groups) ->
  groups = (fun heights : list Z => request env <$> heights)
             <$> ((fun batch : list Request => fst <$> batch) <$> groups).
Proof.
  induction groups as [|batch groups IH]; [done|].
  cbn [concat]. intros [Hb Hbs]%Forall_app.
  cbn [fmap list_fmap]. f_equal; [|by apply IH].
  clear IH Hbs. induction Hb as [|q batch Hq Hb IH]; [done|].
  cbn [fmap list_fmap]. by rewrite <- Hq, <- IH.
Qed.

Lemma fst_concat (groups : list (list Request)) :
  concat ((fun batch : list Request => fst <$> batch) <$> groups)
  = fst <$> concat groups.
Proof.
  induction groups as [|batch groups IH]; [done|].
  cbn [fmap list_fmap concat]. by rewrite IH, fmap_app.
Qed.

Lemma descending_empty top bottom : top < bottom -> descending top bottom = [].
Proof.
  intros H. unfold descending, loop_iterations. by replace (Z.to_nat _) with O by lia.
Qed.

Lemma syncNearcoreBlocks_appends (env : Env) (chain : Z -> BlockInfo)
    (top bottom : Z) (w : World) :
  healthy env ->
  serves env chain ->
  NoDup (Block.hash <$> (blocks (db w)
                         ++ (chain_row env chain <$> descending top bottom))) ->
  blocks (db (fst (syncNearcoreBlocks env top bottom w)))
  = blocks (db w) ++ (chain_row env chain <$> descending top bottom).
Proof.
  intros Hh Hs Hnd. unfold syncNearcoreBlocks.
  destruct (Z.ltb_spec top bottom) as [Hlt|Hle].
  { rewrite descending_empty by done. cbn. by rewrite app_nil_r. }
  rewrite bind_unfold. cbn [console_log]. rewrite bind_unfold.
  set (w0 := mkWorld _ _ _ _).
  pose proof (batches_cover env top bottom) as Hcover.
  assert (Hgroups : concat ((fun batch : list Request => fst <$> batch)
                              <$> batches env top bottom) = descending top bottom).
  { rewrite fst_concat, Hcover, <- list_fmap_compose. apply list_fmap_id. }
  rewrite (requests_of_heights env (batches env top bottom)).
  2:{ rewrite Hcover. apply Forall_fmap, Forall_forall. by intros h _. }
  pose proof (mapM_batches_healthy env chain Hh Hs
                ((fun batch : list Request => fst <$> batch) <$> batches env top bottom) w0)
    as Hrun.
  rewrite Hgroups in Hrun. specialize (Hrun Hnd).
  destruct (total_mapM (saveBlocksFromRequests env)
              ((fun heights : list Z => request env <$> heights)
                 <$> ((fun batch : list Request => fst <$> batch) <$> batches env top bottom))
              (saveBlocksFromRequests_total env) w0) as (w2 & units & Heq).
  rewrite Heq in *. by cbn [fst mret M_ret] in *.
Qed.

Lemma length_down_from n : forall h, length (down_from n h) = n.
Proof. induction n as [|n IH]; intros h; cbn; [done|]. by rewrite IH. Qed.

(** X7: on a healthy database, with a chain node that serves every height,
    and when no hash of the range is stored yet, [syncNearcoreBlocks(top,
    bottom)] adds to the Block table exactly the rows of the blocks of the
    heights [bottom], ..., [top], one for each, whatever the queue sizes:
    max(0, top - bottom + 1) rows.  (Up to the order of the rows: the
    batches are saved concurrently, so the order in which their rows
    arrive is not fixed.) *)
Theorem syncNearcoreBlocks_stores_range (env : Env) (chain : Z -> BlockInfo)
    (top bottom : Z) (w : World) :
  healthy env ->
  serves env chain ->
  NoDup (Block.hash <$> (blocks (db w)
                         ++ (chain_row env chain <$> descending top bottom))) ->
  let w' := fst (syncNearcoreBlocks env top bottom w) in
  blocks (db w') ≡ₚ blocks (db w) ++ (chain_row env chain <$> descending top bottom)
  /\ Z.of_nat (length (blocks (db w')))
     = Z.of_nat (length (blocks (db w))) + Z.max 0 (top - bottom + 1).
Proof.
  intros Hh Hs Hnd. cbn zeta.
  rewrite (syncNearcoreBlocks_appends env chain top bottom w Hh Hs Hnd).
  split; [done|].
  rewrite length_app, length_fmap. unfold descending.
  rewrite length_down_from. unfold loop_iterations. lia.
Qed.

Lemma syncNearcoreBlocks_stores_range_witness :
  blocks (db (fst (syncNearcoreBlocks Healthy.env 4 1 empty_world)))
  ≡ₚ blocks (db empty_world)
     ++ (chain_row Healthy.env Healthy.chain <$> descending 4 1).
Proof.
  refine (proj1 (syncNearcoreBlocks_stores_range Healthy.env Healthy.chain 4 1
                   empty_world _ _ _)).
  - apply Healthy_healthy.
  - apply Healthy_serves.
  - compute_done.
Defined.

Section Chain.
Context (env : Env) (chain : Z -> BlockInfo).
Hypothesis Hhealthy : healthy env.
Hypothesis Hserves : serves env chain.
Hypothesis Hheights : chain_heights chain.
Hypothesis Hdistinct : distinct_hashes env chain.

Lemma chain_row_height h : Block.height (chain_row env chain h) = h.
Proof. unfold chain_row, block_row. cbn. apply Hheights. Qed.

Lemma chain_rows_heights (l : list Z) : Block.height <$> (chain_row env chain <$> l) = l.
Proof.
  rewrite <- list_fmap_compose. rewrite <- (list_fmap_id l) at 2.
  apply list_fmap_ext. intros _ h _. apply chain_row_height.
Qed.

Lemma chain_rows_hold (l : list Z) : holds_chain env chain (chain_row env chain <$> l).
Proof.
  apply Forall_fmap, Forall_forall. intros h _. cbn. by rewrite Hheights.
Qed.

Lemma serves_faithful : rpc_faithful env.
Proof. intros h b. rewrite Hserves. intros [= <-]. apply Hheights. Qed.

Lemma NoDup_down_from n : forall h, NoDup (down_from n h).
Proof.
  induction n as [|n IH]; intros h; cbn [down_from]; constructor; [|apply IH].
  intros Hin%elem_of_down_from. lia.
Qed.

Lemma elem_of_down_from_2 n : forall h h', h - Z.of_nat n < h' <= h -> h' ∈ down_from n h.
Proof.
  induction n as [|n IH]; intros h h' Hh; cbn [down_from]; [lia|].
  destruct (decide (h' = h)) as [->|]; [left|right; apply IH; lia].
Qed.

Lemma elem_of_descending_2 top bottom h :
  bottom <= h <= top -> h ∈ descending top bottom.
Proof.
  intros Hh. unfold descending, loop_iterations. apply elem_of_down_from_2. lia.
Qed.

Lemma hashes_distinct (rows : list Block.row) :
  unique_heights rows -> holds_chain env chain rows -> NoDup (Block.hash <$> rows).
Proof.
  intros Hu Hc. apply NoDup_fmap_2_strong; [|by apply NoDup_fmap_1 in Hu].
  intros r r' Hr Hr' Heq.
  rewrite (proj1 (Forall_forall _ _) Hc r Hr), (proj1 (Forall_forall _ _) Hc r' Hr') in Heq.
  apply Hdistinct in Heq.
  unfold unique_heights in Hu. revert Hu Hr Hr' Heq. clear.
  induction rows as [|x rows IH]; [by intros _ ?%elem_of_nil|].
  cbn [fmap list_fmap]. intros [Hx Hu]%NoDup_cons Hr Hr' Heq.
  apply elem_of_cons in Hr as [->|Hr], Hr' as [->|Hr']; [done| | |by apply IH].
  - destruct Hx. rewrite Heq. by apply list_elem_of_fmap_2.
  - destruct Hx. rewrite <- Heq. by apply list_elem_of_fmap_2.
Qed.

Lemma count_zero_absent lo hi rows h :
  Block_count_between lo hi rows = 0 -> lo <= h <= hi -> h ∉ Block.height <$> rows.
Proof.
  unfold Block_count_between. intros Hc Hh (r & -> & Hr)%list_elem_of_fmap.
  assert (Hin : r ∈ filter (fun r => lo <= Block.height r <= hi) rows).
  { by apply list_elem_of_filter. }
  destruct (filter _ rows); [by apply elem_of_nil in Hin|]. cbn in Hc. lia.
Qed.

(** The pipeline on a range of which nothing is stored. *)
Lemma pipeline_fills lo hi w :
  in_step env chain w ->
  Block_count_between lo hi (blocks (db w)) = 0 ->
  let w' := fst (syncNearcoreBlocks env hi lo w) in
  blocks (db w') = blocks (db w) ++ (chain_row env chain <$> descending hi lo)
  /\ in_step env chain w'.
Proof.
  intros [Hu Hc] Hcount. cbn zeta.
  assert (Hu' : unique_heights (blocks (db w) ++ (chain_row env chain <$> descending hi lo))).
  { unfold unique_heights. rewrite fmap_app, chain_rows_heights.
    apply NoDup_app. split; [done|]. split; [|apply NoDup_down_from].
    intros h Hin Hd%elem_of_descending. by eapply count_zero_absent. }
  assert (Hc' : holds_chain env chain
                  (blocks (db w) ++ (chain_row env chain <$> descending hi lo))).
  { apply Forall_app. split; [done|apply chain_rows_hold]. }
  unfold in_step.
  rewrite (syncNearcoreBlocks_appends env chain); [|done..|by apply hashes_distinct].
  by repeat split.
Qed.

Lemma length_filter_heights lo hi (rows : list Block.row) :
  length (filter (fun r => lo <= Block.height r <= hi) rows)
  = length (filter (fun h => lo <= h <= hi) (Block.height <$> rows)).
Proof.
  induction rows as [|r rows IH]; [done|].
  cbn [fmap list_fmap]. rewrite !filter_cons. destruct (decide _); cbn; by rewrite IH.
Qed.

(** A range of which as many heights are stored as it has holds them all. *)
Lemma count_full_stored lo hi rows h :
  unique_heights rows ->
  Block_count_between lo hi rows = hi - lo + 1 ->
  lo <= h <= hi ->
  h ∈ Block.height <$> rows.
Proof.
  unfold unique_heights, Block_count_between. intros Hu Hcount Hh.
  rewrite length_filter_heights in Hcount.
  set (inside := filter (fun h => lo <= h <= hi) (Block.height <$> rows)) in *.
  assert (Hperm : inside ≡ₚ seqZ lo (hi - lo + 1)).
  { apply submseteq_length_Permutation.
    - apply NoDup_submseteq; [by apply NoDup_filter|].
      intros x [Hx _]%list_elem_of_filter. apply elem_of_seqZ. lia.
    - rewrite length_seqZ. lia. }
  assert (Hin : h ∈ inside).
  { rewrite Hperm. apply elem_of_seqZ. lia. }
  by apply list_elem_of_filter in Hin as [_ Hin].
Qed.

Lemma stored_grows P h w w' : grows P w w' -> stored h w -> stored h w'.
Proof.
  unfold stored. intros (extra & -> & _) Hin. rewrite fmap_app.
  apply elem_of_app. by left.
Qed.

Lemma in_step_unique_within lo hi w : in_step env chain w -> unique_within lo hi w.
Proof. intros [Hu _] h _. by apply count_between_unique. Qed.

Lemma syncMissing_fills (Hfq : 0 <= syncFetchQueueSize env) (k : nat) :
  forall lo hi w,
    hi - lo + 1 <= 2 ^ Z.of_nat k ->
    in_step env chain w ->
    exists w',
      syncMissingNearcoreBlocks (S k) env lo hi w = Some (w', Ok ())
      /\ in_step env chain w'
      /\ grows (in_range lo hi) w w'
      /\ forall h, lo <= h <= hi -> stored h w'.
Proof.
  induction k as [|k IH]; intros lo hi w Hsize Hin; rewrite syncMissing_unfold.
  all: destruct (Z.ltb_spec hi lo) as [Hlt|Hle];
    [exists w; repeat split; [apply Hin..|by apply grows_refl|intros; lia]|].
  all: destruct (Z.eqb_spec (hi - lo + 1) (Block_count_between lo hi (blocks (db w))))
    as [Hfull|Hnot];
    [exists w; repeat split; [apply Hin..|by apply grows_refl|];
     intros h Hh; by apply (count_full_stored lo hi); [apply Hin|..]|].
  all: destruct (_ && _) eqn:Hsmall;
    [apply andb_true_iff in Hsmall as [_ Hzero%Z.eqb_eq];
     destruct (pipeline_fills lo hi w Hin Hzero) as [Hb Hin'];
     destruct (syncNearcoreBlocks_total env hi lo w) as (w' & [] & Heq);
     rewrite Heq in *; cbn [fst] in *; exists w'; repeat split; [apply Hin'..| |];
     [exists (chain_row env chain <$> descending hi lo); split; [done|];
      apply Forall_fmap, Forall_forall; intros h Hd%elem_of_descending;
      cbv [compose in_range]; by rewrite chain_row_height
     |intros h Hh; unfold stored; rewrite Hb, fmap_app, chain_rows_heights;
      apply elem_of_app; right; by apply elem_of_descending_2]|].
  all: assert (Hlt : lo < hi) by
    (destruct (decide (lo = hi)) as [->|]; [|lia];
     pose proof (in_step_unique_within hi hi w Hin hi ltac:(lia));
     pose proof (count_between_nonneg hi hi (blocks (db w)));
     apply andb_false_iff in Hsmall as [Hs%Z.leb_gt|Hs%Z.eqb_neq]; lia).
  { cbn in Hsize. lia. }
  pose proof (midHeight_bounds lo hi Hlt) as Hmid.
  assert (Hpow : 2 ^ Z.of_nat (S k) = 2 * 2 ^ Z.of_nat k).
  { rewrite Nat2Z.inj_succ, Z.pow_succ_r; lia. }
  assert (Hm2 : 2 * midHeight lo hi <= lo + hi < 2 * midHeight lo hi + 2).
  { unfold midHeight. pose proof (Z.div_mod (lo + hi) 2 ltac:(lia)).
    pose proof (Z.mod_pos_bound (lo + hi) 2 ltac:(lia)). lia. }
  destruct (IH lo (midHeight lo hi) w) as (w1 & Hl & Hin1 & Hg1 & Hc1); [lia|done|].
  rewrite Hl.
  destruct (IH (midHeight lo hi + 1) hi w1) as (w2 & Hr & Hin2 & Hg2 & Hc2); [lia|done|].
  exists w2. split; [done|]. split; [done|]. split.
  - eapply grows_trans; (eapply grows_weaken; [|done]); unfold in_range; intros; lia.
  - intros h Hh. destruct (decide (h <= midHeight lo hi)).
    + eapply stored_grows; [done|]. apply Hc1. lia.
    + apply Hc2. lia.
Qed.

End Chain.

Lemma Healthy_in_step (heights : list Z) :
  NoDup heights -> in_step Healthy.env Healthy.chain (Sample.world_with heights).
Proof.
  intros Hnd.
  assert (Hb : blocks (db (Sample.world_with heights))
               = chain_row Healthy.env Healthy.chain <$> heights).
  { unfold Sample.world_with.
    replace ((fun h => Val (Sample.block h (Sample.hash_at h) [])) <$> heights)
      with (Val <$> (Healthy.chain <$> heights)) by (by rewrite <- list_fmap_compose).
    rewrite saveBlocks_blocks_healthy; [by rewrite <- list_fmap_compose|by intros n|].
    cbn [blocks db empty_world empty_store app].
    rewrite <- !list_fmap_compose.
    apply NoDup_fmap_2; [|done]. intros h h' H. by apply Healthy_distinct. }
  split.
  - unfold unique_heights. rewrite Hb.
    by rewrite (chain_rows_heights Healthy.env Healthy.chain Healthy_heights).
  - rewrite Hb. apply chain_rows_hold. apply Healthy_heights.
Qed.


(* ===================================================================== *)
(** * The lowest and the highest stored height                            *)
(* ===================================================================== *)

Lemma foldr_max_ge d (l : list Z) : d <= foldr Z.max d l.
Proof. induction l; cbn; lia. Qed.

Lemma foldr_min_le d (l : list Z) : foldr Z.min d l <= d.
Proof. induction l; cbn; lia. Qed.

Lemma foldr_max_app d (l1 l2 : list Z) :
  foldr Z.max d (l1 ++ l2) = Z.max (foldr Z.max d l1) (foldr Z.max d l2).
Proof.
  pose proof (foldr_max_ge d l2). induction l1 as [|x l1 IH]; cbn; lia.
Qed.

Lemma foldr_min_app d (l1 l2 : list Z) :
  foldr Z.min d (l1 ++ l2) = Z.min (foldr Z.min d l1) (foldr Z.min d l2).
Proof.
  pose proof (foldr_min_le d l2). induction l1 as [|x l1 IH]; cbn; lia.
Qed.

Lemma foldr_max_le d m (l : list Z) :
  d <= m -> Forall (fun x => x <= m) l -> foldr Z.max d l <= m.
Proof. intros Hd. induction 1; cbn; lia. Qed.

Lemma foldr_min_ge d m (l : list Z) :
  m <= d -> Forall (fun x => m <= x) l -> m <= foldr Z.min d l.
Proof. intros Hd. induction 1; cbn; lia. Qed.

Lemma foldr_max_absorb d (l1 l2 : list Z) :
  Forall (fun x => x <= foldr Z.max d l1) l2 ->
  foldr Z.max d (l1 ++ l2) = foldr Z.max d l1.
Proof.
  intros Hall. rewrite foldr_max_app.
  pose proof (foldr_max_ge d l1). pose proof (foldr_max_le d _ l2 H Hall). lia.
Qed.

Lemma foldr_min_absorb d (l1 l2 : list Z) :
  Forall (fun x => foldr Z.min d l1 <= x) l2 ->
  foldr Z.min d (l1 ++ l2) = foldr Z.min d l1.
Proof.
  intros Hall. rewrite foldr_min_app.
  pose proof (foldr_min_le d l1). pose proof (foldr_min_ge d _ l2 H Hall). lia.
Qed.

Lemma max_stored_app rows extra :
  rows <> [] ->
  Forall (fun r => Block.height r <= max_stored_height rows) extra ->
  max_stored_height (rows ++ extra) = max_stored_height rows.
Proof.
  intros Hne Hall. destruct rows as [|r rows]; [done|].
  unfold max_stored_height.
  change (head ((r :: rows) ++ extra)) with (Some r).
  change (head (r :: rows)) with (Some r).
  rewrite fmap_app. apply foldr_max_absorb. apply Forall_fmap. exact Hall.
Qed.

Lemma min_stored_app rows extra :
  rows <> [] ->
  Forall (fun r => min_stored_height rows <= Block.height r) extra ->
  min_stored_height (rows ++ extra) = min_stored_height rows.
Proof.
  intros Hne Hall. destruct rows as [|r rows]; [done|].
  unfold min_stored_height.
  change (head ((r :: rows) ++ extra)) with (Some r).
  change (head (r :: rows)) with (Some r).
  rewrite fmap_app. apply foldr_min_absorb. apply Forall_fmap. exact Hall.
Qed.

Lemma findOne_highest_height rows :
  Block.height <$> Block_findOne_highest rows
  = if decide (rows = []) then None else Some (max_stored_height rows).
Proof.
  pose proof (findOne_highest_is_max rows) as Hmax.
  pose proof (findOne_highest_max rows) as Hsome.
  destruct (Block_findOne_highest rows) as [r|] eqn:Hf.
  - destruct (decide _) as [->|]; [done|]. cbn. f_equal. by apply Hmax.
  - by rewrite decide_True.
Qed.

Lemma findOne_lowest_height rows :
  Block.height <$> Block_findOne_lowest rows
  = if decide (rows = []) then None else Some (min_stored_height rows).
Proof.
  pose proof (findOne_lowest_is_min rows) as Hmin.
  pose proof (findOne_lowest_min rows) as Hsome.
  destruct (Block_findOne_lowest rows) as [r|] eqn:Hf.
  - destruct (decide _) as [->|]; [done|]. cbn. f_equal. by apply Hmin.
  - by rewrite decide_True.
Qed.

Lemma gap_pass_range (env : Env) (fuel : nat) (w w' : World) (o : outcome unit) :
  rpc_faithful env ->
  syncMissingNearcoreState fuel env w = Some (w', o) ->
  (exists extra,
     blocks (db w') = blocks (db w) ++ extra
     /\ Forall (fun r => min_stored_height (blocks (db w)) < Block.height r
                         < max_stored_height (blocks (db w))) extra)
  /\ Block.height <$> Block_findOne_highest (blocks (db w'))
     = Block.height <$> Block_findOne_highest (blocks (db w))
  /\ Block.height <$> Block_findOne_lowest (blocks (db w'))
     = Block.height <$> Block_findOne_lowest (blocks (db w)).
Proof.
  intros Hrpc. unfold syncMissingNearcoreState.
  pose proof (findOne_highest_is_max (blocks (db w))) as Hmax.
  pose proof (findOne_lowest_is_min (blocks (db w))) as Hmin.
  pose proof (findOne_highest_max (blocks (db w))) as Hsome.
  destruct (Block_findOne_highest (blocks (db w))) as [latest|] eqn:Hhi.
  2:{ intros [= <- <-]. rewrite Hhi. split; [|done]. exists []. by rewrite app_nil_r. }
  destruct (Block_findOne_lowest (blocks (db w))) as [oldest|] eqn:Hlo.
  2:{ intros [= <- <-]. rewrite Hhi, Hlo. split; [|done]. exists []. by rewrite app_nil_r. }
  rewrite (Hmax latest eq_refl), (Hmin oldest eq_refl).
  intros (extra & Hb & Hall)%syncMissing_grows; [|done].
  assert (Hne : blocks (db w) <> []) by (intros Hnil; by rewrite Hnil in Hhi).
  assert (Hin : Forall (fun r => min_stored_height (blocks (db w)) < Block.height r
                         < max_stored_height (blocks (db w))) extra).
  { eapply Forall_impl; [done|]. unfold in_range. intros; lia. }
  split; [by exists extra|].
  rewrite !findOne_highest_height, !findOne_lowest_height, Hb.
  rewrite !decide_False by (done || by destruct (blocks (db w))).
  rewrite max_stored_app, min_stored_app;
    [cbn; by rewrite (Hmax latest eq_refl), (Hmin oldest eq_refl)|try done..].
  - eapply Forall_impl; [done|]. intros; cbn in *; lia.
  - eapply Forall_impl; [done|]. intros; cbn in *; lia.
Qed.

Lemma findOne_highest_elem rows r : Block_findOne_highest rows = Some r -> r ∈ rows.
Proof.
  revert r. induction rows as [|x rows IH]; intros r; [done|].
  cbn [Block_findOne_highest]. destruct (Block_findOne_highest rows) as [r'|].
  - destruct (_ <? _); intros [= <-]; [left|right; by apply IH].
  - intros [= <-]. left.
Qed.

Lemma findOne_lowest_elem rows r : Block_findOne_lowest rows = Some r -> r ∈ rows.
Proof.
  revert r. induction rows as [|x rows IH]; intros r; [done|].
  cbn [Block_findOne_lowest]. destruct (Block_findOne_lowest rows) as [r'|].
  - destruct (_ <? _); intros [= <-]; [left|right; by apply IH].
  - intros [= <-]. left.
Qed.

Lemma count_stored_once h rows :
  unique_heights rows -> h ∈ Block.height <$> rows -> Block_count_between h h rows = 1.
Proof.
  intros Hu (r & -> & Hr)%list_elem_of_fmap.
  pose proof (count_between_unique (Block.height r) rows Hu) as Hle.
  assert (Hin : r ∈ filter (fun r0 => Block.height r <= Block.height r0 <= Block.height r) rows).
  { apply list_elem_of_filter. split; [lia|done]. }
  unfold Block_count_between in *.
  destruct (filter _ rows); [by apply elem_of_nil in Hin|]. cbn in *. lia.
Qed.

(* ===================================================================== *)
(** * What the passes add, and where they come to rest                    *)
(* ===================================================================== *)

Lemma syncNew_world env st p :
  world (fst (syncNewNearcoreState env st p))
  = match reported_height st with
    | Some tip => fst (syncNearcoreBlocks env tip (latest_synced_height (world p) + 1) (world p))
    | None => world p
    end.
Proof.
  unfold syncNewNearcoreState, reported_height, latest_synced_height.
  destruct st as [[|[[|[height]]]]|error]; cbn;
    destruct (Block_findOne_highest _) as [b|]; try done;
    destruct height; done.
Qed.

Lemma syncOld_world env p :
  world (fst (syncOldNearcoreState env p))
  = fst (syncNearcoreBlocks env (oldest_synced_height (world p) - 1) 1 (world p)).
Proof.
  unfold syncOldNearcoreState, oldest_synced_height.
  by destruct (Block_findOne_lowest _).
Qed.

Lemma guarded_world warn r : world (guarded warn r) = world (fst r).
Proof. unfold guarded. by destruct (snd r). Qed.

(** X9: with a chain node that answers with the block of the height asked
    for, [syncNewNearcoreState] only appends Block rows whose heights lie
    above the highest stored height (above 0 in an empty store) and not
    above the height the node reports; when [nearRpc.status()] is
    rejected, or its answer has no numeric
    [sync_info.latest_block_height], the pass leaves the store, the
    pipeline's console and the statement count untouched. *)
Theorem syncNew_adds_above_watermark (env : Env)
    (nearRpc_status : Outcome NodeStatus RpcError) (p : Process) :
  rpc_faithful env ->
  let w' := world (fst (syncNewNearcoreState env nearRpc_status p)) in
  match reported_height nearRpc_status with
  | Some tip =>
      grows (fun r => latest_synced_height (world p) < Block.height r <= tip)
            (world p) w'
  | None => w' = world p
  end.
Proof.
  intros Hrpc. cbn zeta. rewrite syncNew_world.
  destruct (reported_height nearRpc_status) as [tip|]; [|done].
  destruct (adds_syncNearcoreBlocks env tip (latest_synced_height (world p) + 1) Hrpc
              (world p)) as [Hg _].
  eapply grows_weaken; [|done]. unfold in_range. intros; lia.
Qed.

Lemma syncNew_adds_above_watermark_witness :
  grows (fun r => latest_synced_height (world (Healthy.process_with [1]))
                  < Block.height r <= 4)
        (world (Healthy.process_with [1]))
        (world (fst (syncNewNearcoreState (Sample.env true) (Healthy.status (JNumber 4))
                       (Healthy.process_with [1])))).
Proof.
  apply (syncNew_adds_above_watermark (Sample.env true) (Healthy.status (JNumber 4))
           (Healthy.process_with [1])).
  apply Sample_chain_faithful.
Defined.

(** X10: with a chain node that answers with the block of the height asked
    for, [syncOldNearcoreState] only appends Block rows whose heights lie
    between 1 and the lowest stored height, exclusive; when that height is
    at most 1, and on an empty store, where it counts as 0, the pass
    leaves the store, the console of the pipeline and the statement count
    as they were. *)
Theorem syncOld_adds_below_watermark (env : Env) (p : Process) :
  rpc_faithful env ->
  let w' := world (fst (syncOldNearcoreState env p)) in
  grows (fun r => 1 <= Block.height r < oldest_synced_height (world p)) (world p) w'
  /\ (oldest_synced_height (world p) <= 1 -> w' = world p).
Proof.
  intros Hrpc. cbn zeta. rewrite syncOld_world. split.
  - destruct (adds_syncNearcoreBlocks env (oldest_synced_height (world p) - 1) 1 Hrpc
                (world p)) as [Hg _].
    eapply grows_weaken; [|done]. unfold in_range. intros; lia.
  - intros Hlow. unfold syncNearcoreBlocks.
    by destruct (Z.ltb_spec (oldest_synced_height (world p) - 1) 1); [|lia].
Qed.

Lemma syncOld_adds_below_watermark_witness :
  let p := Healthy.process_with [4] in
  let w' := world (fst (syncOldNearcoreState (Sample.env true) p)) in
  grows (fun r => 1 <= Block.height r < oldest_synced_height (world p)) (world p) w'
  /\ (oldest_synced_height (world p) <= 1 -> w' = world p).
Proof.
  apply (syncOld_adds_below_watermark (Sample.env true) (Healthy.process_with [4])).
  apply Sample_chain_faithful.
Defined.

Lemma foldr_max_elem d (l : list Z) x : x ∈ l -> x <= foldr Z.max d l.
Proof.
  induction l as [|y l IH]; [by intros ?%elem_of_nil|].
  intros [->|Hin]%elem_of_cons; cbn; [lia|]. specialize (IH Hin). lia.
Qed.

Lemma foldr_min_elem d (l : list Z) x : x ∈ l -> foldr Z.min d l <= x.
Proof.
  induction l as [|y l IH]; [by intros ?%elem_of_nil|].
  intros [->|Hin]%elem_of_cons; cbn; [lia|]. specialize (IH Hin). lia.
Qed.

Lemma latest_synced_ge w r :
  r ∈ blocks (db w) -> Block.height r <= latest_synced_height w.
Proof.
  intros Hin. unfold latest_synced_height.
  pose proof (findOne_highest_max (blocks (db w))) as H.
  destruct (Block_findOne_highest (blocks (db w))) as [b|].
  - cbn. specialize (H (Block.height b)).
    pose proof (foldr_max_elem (Block.height b) (Block.height <$> blocks (db w))
                  (Block.height r) (list_elem_of_fmap_2 _ _ _ Hin)). lia.
  - rewrite H in Hin. by apply elem_of_nil in Hin.
Qed.

Lemma oldest_synced_le w r :
  r ∈ blocks (db w) -> oldest_synced_height w <= Block.height r.
Proof.
  intros Hin. unfold oldest_synced_height.
  pose proof (findOne_lowest_min (blocks (db w))) as H.
  destruct (Block_findOne_lowest (blocks (db w))) as [b|].
  - cbn. specialize (H (Block.height b)).
    pose proof (foldr_min_elem (Block.height b) (Block.height <$> blocks (db w))
                  (Block.height r) (list_elem_of_fmap_2 _ _ _ Hin)). lia.
  - rewrite H in Hin. by apply elem_of_nil in Hin.
Qed.

Lemma latest_synced_stored w : blocks (db w) <> [] -> stored (latest_synced_height w) w.
Proof.
  intros Hne. unfold latest_synced_height, stored.
  pose proof (findOne_highest_max (blocks (db w))) as H.
  pose proof (findOne_highest_elem (blocks (db w))) as Hin.
  destruct (Block_findOne_highest (blocks (db w))) as [b|]; [|done].
  cbn [from_option]. apply list_elem_of_fmap_2. by apply Hin.
Qed.

Lemma oldest_synced_stored w : blocks (db w) <> [] -> stored (oldest_synced_height w) w.
Proof.
  intros Hne. unfold oldest_synced_height, stored.
  pose proof (findOne_lowest_min (blocks (db w))) as H.
  pose proof (findOne_lowest_elem (blocks (db w))) as Hin.
  destruct (Block_findOne_lowest (blocks (db w))) as [b|]; [|done].
  cbn [from_option]. apply list_elem_of_fmap_2. by apply Hin.
Qed.

Lemma count_between_none lo hi rows :
  Forall (fun r => ~ lo <= Block.height r <= hi) rows ->
  Block_count_between lo hi rows = 0.
Proof.
  intros Hall. unfold Block_count_between.
  induction Hall as [|r l Hr Hall IH]; [done|].
  rewrite filter_cons. by destruct (decide _).
Qed.

Lemma count_above_latest w lo hi :
  latest_synced_height w < lo -> Block_count_between lo hi (blocks (db w)) = 0.
Proof.
  intros Hlt. apply count_between_none, Forall_forall. intros r Hr.
  pose proof (latest_synced_ge w r Hr). lia.
Qed.

Lemma count_below_oldest w lo hi :
  hi < oldest_synced_height w -> Block_count_between lo hi (blocks (db w)) = 0.
Proof.
  intros Hlt. apply count_between_none, Forall_forall. intros r Hr.
  pose proof (oldest_synced_le w r Hr). lia.
Qed.

Lemma stored_elem h w : stored h w -> exists r, r ∈ blocks (db w) /\ Block.height r = h.
Proof. intros (r & -> & Hr)%list_elem_of_fmap. by exists r. Qed.

Section Passes.
Context (env : Env) (chain : Z -> BlockInfo).
Hypothesis Hhealthy : healthy env.
Hypothesis Hserves : serves env chain.
Hypothesis Hheights : chain_heights chain.
Hypothesis Hdistinct : distinct_hashes env chain.
Hypothesis Hfq : 0 <= syncFetchQueueSize env.

Lemma pipeline_stores lo hi w :
  in_step env chain w ->
  Block_count_between lo hi (blocks (db w)) = 0 ->
  let w' := fst (syncNearcoreBlocks env hi lo w) in
  in_step env chain w'
  /\ grows (in_range lo hi) w w'
  /\ forall h, lo <= h <= hi -> stored h w'.
Proof.
  intros Hin Hcount. cbn zeta.
  destruct (pipeline_fills env chain Hhealthy Hserves Hheights Hdistinct lo hi w Hin Hcount)
    as [Hb Hin'].
  split; [done|]. split.
  - exists (chain_row env chain <$> descending hi lo). split; [done|].
    apply Forall_fmap, Forall_forall. intros h Hh%elem_of_descending.
    cbv [compose in_range]. rewrite (chain_row_height env chain Hheights). lia.
  - intros h Hh. unfold stored. rewrite Hb, fmap_app.
    rewrite (chain_rows_heights env chain Hheights).
    apply elem_of_app. right. by apply elem_of_descending_2.
Qed.

Lemma gap_pass_fills w :
  in_step env chain w ->
  exists w',
    (forall fuel,
       (Z.to_nat (Z.log2_up (latest_synced_height w - oldest_synced_height w - 1))
        < fuel)%nat ->
       syncMissingNearcoreState fuel env w = Some (w', Ok ()))
    /\ in_step env chain w'
    /\ grows (fun r => oldest_synced_height w < Block.height r < latest_synced_height w)
             w w'
    /\ forall h, blocks (db w) <> [] ->
         oldest_synced_height w <= h <= latest_synced_height w -> stored h w'.
Proof.
  intros Hin.
  pose proof (latest_synced_stored w) as Hmaxin.
  pose proof (oldest_synced_stored w) as Hminin.
  pose proof (findOne_highest_max (blocks (db w))) as Hmax.
  pose proof (findOne_lowest_min (blocks (db w))) as Hmin.
  unfold syncMissingNearcoreState, latest_synced_height, oldest_synced_height in *.
  destruct (Block_findOne_highest (blocks (db w))) as [latest|];
    [|exists w; split; [done|split; [done|split; [by apply grows_refl|done]]]].
  destruct (Block_findOne_lowest (blocks (db w))) as [oldest|];
    [|exists w; split; [done|split; [done|split; [by apply grows_refl|done]]]].
  cbn [from_option] in *.
  set (lo := Block.height oldest + 1). set (hi := Block.height latest - 1).
  destruct (syncMissing_fills env chain Hhealthy Hserves Hheights Hdistinct Hfq
              (Z.to_nat (Z.log2_up (hi - lo + 1))) lo hi w) as (w' & Hrun & Hin' & Hg & Hc);
    [|done|].
  { rewrite Z2Nat.id by apply Z.log2_up_nonneg.
    destruct (decide (0 < hi - lo + 1)); [by apply Z.log2_log2_up_spec|].
    pose proof (Z.pow_pos_nonneg 2 (Z.log2_up (hi - lo + 1)) ltac:(lia)
                  (Z.log2_up_nonneg _)). lia. }
  exists w'. split; [|split; [done|split]].
  - intros fuel Hfuel. eapply syncMissing_fuel_mono; [|done].
    replace (Block.height latest - Block.height oldest - 1) with (hi - lo + 1) in Hfuel
      by (unfold lo, hi; lia). lia.
  - eapply grows_weaken; [|done]. unfold in_range, lo, hi. intros; lia.
  - intros h Hne Hrange.
    destruct (decide (lo <= h <= hi)) as [Hmid|Hend]; [by apply Hc|].
    eapply stored_grows; [done|].
    assert (h = Block.height oldest \/ h = Block.height latest) as [->| ->]
      by (unfold lo, hi in Hend; lia).
    + by apply Hminin.
    + by apply Hmaxin.
Qed.

Lemma syncNew_fills st p :
  in_step env chain (world p) ->
  let w' := world (fst (syncNewNearcoreState env st p)) in
  in_step env chain w'
  /\ grows (fun _ => True) (world p) w'
  /\ forall tip h, reported_height st = Some tip ->
       latest_synced_height (world p) < h <= tip -> stored h w'.
Proof.
  intros Hin. cbn zeta. rewrite syncNew_world.
  destruct (reported_height st) as [tip|];
    [|split; [done|split; [by apply grows_refl|done]]].
  destruct (pipeline_stores (latest_synced_height (world p) + 1) tip (world p) Hin)
    as (Hin' & Hg & Hst).
  { apply count_above_latest. lia. }
  split; [done|]. split; [by eapply grows_weaken|].
  intros tip' h [= <-] Hh. apply Hst. lia.
Qed.

Lemma syncOld_fills p :
  in_step env chain (world p) ->
  let w' := world (fst (syncOldNearcoreState env p)) in
  in_step env chain w'
  /\ grows (fun _ => True) (world p) w'
  /\ forall h, 1 <= h < oldest_synced_height (world p) -> stored h w'.
Proof.
  intros Hin. cbn zeta. rewrite syncOld_world.
  destruct (pipeline_stores 1 (oldest_synced_height (world p) - 1) (world p) Hin)
    as (Hin' & Hg & Hst).
  { apply count_below_oldest. lia. }
  split; [done|]. split; [by eapply grows_weaken|].
  intros h Hh. apply Hst. lia.
Qed.

Lemma syncFull_fills st p :
  in_step env chain (world p) ->
  exists p' fuel0,
    (forall fuel, (fuel0 <= fuel)%nat ->
       syncFullNearcoreState fuel env st p = Some p')
    /\ in_step env chain (world p')
    /\ grows (fun _ => True) (world p) (world p')
    /\ forall h, 1 <= h ->
         h <= latest_synced_height (world p)
         \/ (exists tip, reported_height st = Some tip /\ h <= tip) ->
         stored h (world p').
Proof.
  intros Hin. unfold syncFullNearcoreState.
  set (p1 := guarded WarnNewCrashed (syncNewNearcoreState env st p)).
  destruct (syncNew_fills st p Hin) as (Hin1 & Hg1 & Hst1).
  rewrite <- (guarded_world WarnNewCrashed) in Hin1, Hg1, Hst1. fold p1 in Hin1, Hg1, Hst1.
  destruct (gap_pass_fills (world p1) Hin1) as (w2 & Hrun & Hin2 & Hg2 & Hst2).
  set (fuel0 := S (Z.to_nat (Z.log2_up (latest_synced_height (world p1)
                                        - oldest_synced_height (world p1) - 1)))).
  set (p2 := mkProcess w2 (pass_console p1)).
  destruct (syncOld_fills p2 Hin2) as (Hin3 & Hg3 & Hst3).
  exists (guarded WarnOldCrashed (syncOldNearcoreState env p2)), fuel0.
  rewrite guarded_world.
  split; [|split; [done|split]].
  - intros fuel Hfuel. unfold await_missing. rewrite Hrun by (unfold fuel0 in Hfuel; lia).
    done.
  - eapply grows_trans; [|done]. eapply grows_trans; [done|].
    by eapply grows_weaken.
  - intros h Hpos Hh.
    destruct (decide (h < oldest_synced_height w2)) as [Hlow|Hhigh];
      [apply Hst3; cbn; lia|].
    eapply stored_grows; [done|]. cbn [world p2].
    assert (Hne1 : blocks (db (world p1)) <> []).
    { intros Hnil. destruct Hg1 as (e1 & Hb1 & _). rewrite Hb1 in Hnil.
      apply app_eq_nil in Hnil as [Hnil ->].
      destruct Hh as [Hh|(tip & Htip & Hh)].
      - unfold latest_synced_height in Hh. rewrite Hnil in Hh. cbn in Hh. lia.
      - assert (Hs : stored h (world p1)).
        { apply (Hst1 tip h Htip). unfold latest_synced_height. rewrite Hnil. cbn. lia. }
        unfold stored in Hs. rewrite Hb1, Hnil in Hs. by apply elem_of_nil in Hs. }
    apply Hst2; [done|]. split.
    + (* the gap pass adds nothing below the lowest block *)
      assert (Hne2 : blocks (db w2) <> []).
      { destruct Hg2 as (e2 & -> & _). by destruct (blocks (db (world p1))). }
      destruct (stored_elem _ _ (oldest_synced_stored w2 Hne2)) as (r & Hr & Hrh).
      destruct Hg2 as (e2 & Hb2 & Hall2). rewrite Hb2 in Hr.
      apply elem_of_app in Hr as [Hr|Hr].
      * pose proof (oldest_synced_le (world p1) r Hr). lia.
      * rewrite Forall_forall in Hall2. specialize (Hall2 r Hr). lia.
    + destruct Hh as [Hh|(tip & Htip & Hh)].
      * assert (latest_synced_height (world p) <= latest_synced_height (world p1)); [|lia].
        destruct (decide (blocks (db (world p)) = [])) as [Hnil|Hne].
        { unfold latest_synced_height in Hh. rewrite Hnil in Hh. cbn in Hh. lia. }
        destruct (stored_elem _ _ (latest_synced_stored (world p) Hne)) as (r & Hr & <-).
        apply latest_synced_ge. destruct Hg1 as (e1 & -> & _).
        apply elem_of_app. by left.
      * destruct (decide (latest_synced_height (world p) < tip)) as [Hnew|Hold].
        { destruct (stored_elem _ _ (Hst1 tip tip Htip ltac:(lia))) as (r & Hr & Hrh).
          pose proof (latest_synced_ge (world p1) r Hr). lia. }
        assert (latest_synced_height (world p) <= latest_synced_height (world p1)); [|lia].
        destruct (decide (blocks (db (world p)) = [])) as [Hnil|Hne].
        { unfold latest_synced_height in Hold. rewrite Hnil in Hold. cbn in Hold. lia. }
        destruct (stored_elem _ _ (latest_synced_stored (world p) Hne)) as (r & Hr & <-).
        apply latest_synced_ge. destruct Hg1 as (e1 & -> & _).
        apply elem_of_app. by left.
Qed.

End Passes.

Lemma latest_synced_is_max w :
  latest_synced_height w = max_stored_height (blocks (db w)).
Proof.
  unfold latest_synced_height.
  pose proof (findOne_highest_is_max (blocks (db w))) as Hmax.
  pose proof (findOne_highest_max (blocks (db w))) as Hnone.
  destruct (Block_findOne_highest (blocks (db w))) as [r|]; [by apply Hmax|].
  by rewrite Hnone.
Qed.

Lemma oldest_synced_is_min w :
  oldest_synced_height w = min_stored_height (blocks (db w)).
Proof.
  unfold oldest_synced_height.
  pose proof (findOne_lowest_is_min (blocks (db w))) as Hmin.
  pose proof (findOne_lowest_min (blocks (db w))) as Hnone.
  destruct (Block_findOne_lowest (blocks (db w))) as [r|]; [by apply Hmin|].
  by rewrite Hnone.
Qed.

(** X11: with a chain node that answers with the block of the height asked
    for, whenever the gap pass returns it has only appended Block rows
    whose heights lie strictly between the lowest and the highest stored
    height, so the two heights it started from are still the lowest and
    the highest afterwards. *)
Theorem gap_pass_stays_inside (env : Env) (fuel : nat) (w w' : World) (o : outcome unit) :
  rpc_faithful env ->
  syncMissingNearcoreState fuel env w = Some (w', o) ->
  grows (fun r => oldest_synced_height w < Block.height r < latest_synced_height w) w w'
  /\ latest_synced_height w' = latest_synced_height w
  /\ oldest_synced_height w' = oldest_synced_height w.
Proof.
  intros Hrpc Hrun.
  destruct (gap_pass_range env fuel w w' o Hrpc Hrun) as (Hg & Hhi & Hlo).
  split; [by rewrite (latest_synced_is_max w), (oldest_synced_is_min w)|].
  assert (Hd : forall found, from_option Block.height 0 found
                             = default 0 (Block.height <$> found)) by (by intros []).
  unfold latest_synced_height, oldest_synced_height. by rewrite !Hd, Hhi, Hlo.
Qed.

Lemma gap_pass_stays_inside_witness :
  let w := Sample.world_with [1; 3; 5] in
  let run := syncMissingNearcoreState 3 (Sample.env true) w in
  let w' := from_option fst w run in
  grows (fun r => oldest_synced_height w < Block.height r < latest_synced_height w) w w'
  /\ latest_synced_height w' = latest_synced_height w
  /\ oldest_synced_height w' = oldest_synced_height w.
Proof.
  intros w run w'.
  apply (gap_pass_stays_inside (Sample.env true) 3 w w' (from_option snd (Ok ()) run)).
  - apply Sample_chain_faithful.
  - vm_compute. reflexivity.
Defined.

(** X12: on a healthy database, with a chain node that serves every height
    under its own hash, a non-negative FETCH_QUEUE and a store that holds
    blocks of that chain, each height once, the gap pass returns normally
    once its stack may hold more than ceil(log2(highest - lowest - 1))
    frames, and afterwards every height between two blocks that were
    stored is stored exactly once. *)
Theorem gap_pass_converges (env : Env) (chain : Z -> BlockInfo) (w : World) :
  healthy env ->
  serves env chain ->
  chain_heights chain ->
  distinct_hashes env chain ->
  0 <= syncFetchQueueSize env ->
  in_step env chain w ->
  exists w',
    (forall fuel,
       (Z.to_nat (Z.log2_up (latest_synced_height w - oldest_synced_height w - 1))
        < fuel)%nat ->
       syncMissingNearcoreState fuel env w = Some (w', Ok ()))
    /\ in_step env chain w'
    /\ forall r r' h,
         r ∈ blocks (db w) -> r' ∈ blocks (db w) ->
         Block.height r <= h <= Block.height r' ->
         Block_count_between h h (blocks (db w')) = 1.
Proof.
  intros Hh Hs Hch Hd Hfq Hin.
  destruct (gap_pass_fills env chain Hh Hs Hch Hd Hfq w Hin) as (w' & Hrun & Hin' & _ & Hst).
  exists w'. split; [done|]. split; [done|].
  intros r r' h Hr Hr' Hrange. apply count_stored_once; [apply Hin'|].
  apply Hst; [intros Hnil; rewrite Hnil in Hr; by apply elem_of_nil in Hr|].
  pose proof (oldest_synced_le w r Hr). pose proof (latest_synced_ge w r' Hr'). lia.
Qed.

Lemma gap_pass_converges_witness :
  let w := Sample.world_with [1; 6] in
  exists w',
    (forall fuel,
       (Z.to_nat (Z.log2_up (latest_synced_height w - oldest_synced_height w - 1))
        < fuel)%nat ->
       syncMissingNearcoreState fuel Healthy.env w = Some (w', Ok ()))
    /\ in_step Healthy.env Healthy.chain w'
    /\ forall r r' h,
         r ∈ blocks (db w) -> r' ∈ blocks (db w) ->
         Block.height r <= h <= Block.height r' ->
         Block_count_between h h (blocks (db w')) = 1.
Proof.
  apply (gap_pass_converges Healthy.env Healthy.chain (Sample.world_with [1; 6])).
  - apply Healthy_healthy.
  - apply Healthy_serves.
  - apply Healthy_heights.
  - apply Healthy_distinct.
  - cbn. lia.
  - apply (Healthy_in_step [1; 6]). compute_done.
Defined.

(** X13: on a healthy database, with a chain node that serves every height
    under its own hash, a non-negative FETCH_QUEUE and a store that holds
    blocks of that chain, each height once, [syncFullNearcoreState]
    returns (given enough stack for its gap pass), and afterwards every
    height from 1 up to the highest stored height, and up to the height
    the node reported if it reported one, is stored exactly once; this
    holds whatever [nearRpc.status()] settles with, a crash of the first
    pass not stopping the other two. *)
Theorem syncFull_converges (env : Env) (chain : Z -> BlockInfo)
    (nearRpc_status : Outcome NodeStatus RpcError) (p : Process) :
  healthy env ->
  serves env chain ->
  chain_heights chain ->
  distinct_hashes env chain ->
  0 <= syncFetchQueueSize env ->
  in_step env chain (world p) ->
  exists p' fuel0,
    (forall fuel, (fuel0 <= fuel)%nat ->
       syncFullNearcoreState fuel env nearRpc_status p = Some p')
    /\ in_step env chain (world p')
    /\ forall h, 1 <= h ->
         h <= latest_synced_height (world p)
         \/ (exists tip, reported_height nearRpc_status = Some tip /\ h <= tip) ->
         Block_count_between h h (blocks (db (world p'))) = 1.
Proof.
  intros Hh Hs Hch Hd Hfq Hin.
  destruct (syncFull_fills env chain Hh Hs Hch Hd Hfq nearRpc_status p Hin)
    as (p' & fuel0 & Hrun & Hin' & _ & Hst).
  exists p', fuel0. split; [done|]. split; [done|].
  intros h Hpos Hcase. apply count_stored_once; [apply Hin'|]. by apply Hst.
Qed.

Lemma syncFull_converges_witness :
  exists p' fuel0,
    (forall fuel, (fuel0 <= fuel)%nat ->
       syncFullNearcoreState fuel Healthy.env (Healthy.status (JNumber 9))
         (Healthy.process_with [3; 6]) = Some p')
    /\ in_step Healthy.env Healthy.chain (world p')
    /\ forall h, 1 <= h ->
         h <= latest_synced_height (world (Healthy.process_with [3; 6]))
         \/ (exists tip, reported_height (Healthy.status (JNumber 9)) = Some tip /\ h <= tip) ->
         Block_count_between h h (blocks (db (world p'))) = 1.
Proof.
  apply (syncFull_converges Healthy.env Healthy.chain (Healthy.status (JNumber 9))
           (Healthy.process_with [3; 6])).
  - apply Healthy_healthy.
  - apply Healthy_serves.
  - apply Healthy_heights.
  - apply Healthy_distinct.
  - cbn. lia.
  - apply (Healthy_in_step [3; 6]). compute_done.
Defined.

Lemma count_between_split lo m hi rows :
  lo <= m + 1 -> m <= hi ->
  Block_count_between lo hi rows
  = Block_count_between lo m rows + Block_count_between (m + 1) hi rows.
Proof.
  intros Hlo Hhi. unfold Block_count_between.
  induction rows as [|r rows IH]; [done|].
  rewrite !filter_cons.
  destruct (decide (lo <= Block.height r <= hi)),
           (decide (lo <= Block.height r <= m)),
           (decide (m + 1 <= Block.height r <= hi)); cbn [length]; lia.
Qed.

Lemma count_range_full rows (n : nat) : forall lo,
  unique_heights rows ->
  (forall h, lo <= h < lo + Z.of_nat n -> h ∈ Block.height <$> rows) ->
  Block_count_between lo (lo + Z.of_nat n - 1) rows = Z.of_nat n.
Proof.
  induction n as [|n IH]; intros lo Hu Hall.
  - apply count_between_empty. lia.
  - rewrite (count_between_split lo lo) by lia.
    rewrite count_stored_once; [|done|apply Hall; lia].
    replace (lo + Z.of_nat (S n) - 1) with (lo + 1 + Z.of_nat n - 1) by lia.
    rewrite IH; [lia|done|]. intros h Hh. apply Hall. lia.
Qed.

Lemma syncNearcoreBlocks_idle env top bottom w :
  top < bottom -> syncNearcoreBlocks env top bottom w = (w, Ok ()).
Proof.
  intros Hlt. unfold syncNearcoreBlocks.
  by destruct (Z.ltb_spec top bottom); [|lia].
Qed.

Lemma gap_pass_idle env fuel w :
  (0 < fuel)%nat ->
  unique_heights (blocks (db w)) ->
  (forall h, oldest_synced_height w < h < latest_synced_height w -> stored h w) ->
  syncMissingNearcoreState fuel env w = Some (w, Ok ()).
Proof.
  intros Hfuel Hu Hall. destruct fuel as [|fuel]; [lia|].
  unfold syncMissingNearcoreState, latest_synced_height, oldest_synced_height in *.
  destruct (Block_findOne_highest (blocks (db w))) as [latest|]; [|done].
  destruct (Block_findOne_lowest (blocks (db w))) as [oldest|]; [|done].
  cbn [from_option] in Hall. rewrite syncMissing_unfold.
  destruct (Z.ltb_spec (Block.height latest - 1) (Block.height oldest + 1)); [done|].
  pose proof (count_range_full (blocks (db w))
                (Z.to_nat (Block.height latest - 1 - (Block.height oldest + 1) + 1))
                (Block.height oldest + 1) Hu) as Hfull.
  rewrite Z2Nat.id in Hfull by lia.
  replace (Block.height oldest + 1
           + (Block.height latest - 1 - (Block.height oldest + 1) + 1) - 1)
    with (Block.height latest - 1) in Hfull by lia.
  rewrite Hfull; [by rewrite Z.eqb_refl|]. intros h Hh. apply Hall. lia.
Qed.

(** X14: a store in step with the chain is a fixed point of
    [syncFullNearcoreState]: when no two blocks share a height, every
    height between the lowest and the highest stored one is stored, the
    lowest is at most 1 and the node reports nothing above the highest,
    the three passes leave the store, the console of the pipeline, the
    queue of detached statements and the statement count as they were
    (no range is synced, no statement is issued), whatever the chain
    node and the database would have answered. *)
Theorem syncFull_idle_when_synced (env : Env)
    (nearRpc_status : Outcome NodeStatus RpcError) (p : Process) (fuel : nat) :
  (0 < fuel)%nat ->
  unique_heights (blocks (db (world p))) ->
  (forall h, oldest_synced_height (world p) < h < latest_synced_height (world p) ->
             stored h (world p)) ->
  oldest_synced_height (world p) <= 1 ->
  (forall tip, reported_height nearRpc_status = Some tip ->
               tip <= latest_synced_height (world p)) ->
  exists p',
    syncFullNearcoreState fuel env nearRpc_status p = Some p'
    /\ world p' = world p.
Proof.
  intros Hfuel Hu Hall Hold Htip. unfold syncFullNearcoreState.
  set (p1 := guarded WarnNewCrashed (syncNewNearcoreState env nearRpc_status p)).
  assert (H1 : world p1 = world p).
  { unfold p1. rewrite guarded_world, syncNew_world.
    destruct (reported_height nearRpc_status) as [tip|]; [|done].
    rewrite syncNearcoreBlocks_idle; [done|]. specialize (Htip tip eq_refl). lia. }
  unfold await_missing. rewrite H1, (gap_pass_idle env fuel (world p)) by done.
  eexists. split; [done|].
  rewrite guarded_world, syncOld_world. cbn.
  by rewrite syncNearcoreBlocks_idle by lia.
Qed.

Lemma syncFull_idle_when_synced_witness :
  exists p',
    syncFullNearcoreState 1 (Sample.env true) (Healthy.status (JNumber 3))
      (Healthy.process_with [3; 1; 2]) = Some p'
    /\ world p' = world (Healthy.process_with [3; 1; 2]).
Proof.
  apply (syncFull_idle_when_synced (Sample.env true) (Healthy.status (JNumber 3))
           (Healthy.process_with [3; 1; 2]) 1).
  - lia.
  - compute_done.
  - change (oldest_synced_height (world (Healthy.process_with [3; 1; 2]))) with 1.
    change (latest_synced_height (world (Healthy.process_with [3; 1; 2]))) with 3.
    intros h Hh. assert (h = 2) as -> by lia. unfold stored. compute_done.
  - compute_done.
  - intros tip [= <-]. compute_done.
Defined.

(* ===================================================================== *)
(** * Telemetry, one report after the other                               *)
(* ===================================================================== *)

Lemma node_telemetry_healthy env now nodeInfo w :
  db_fault env (statements w) = false ->
  node_telemetry env now nodeInfo w
  = (mkWorld (mkStore (blocks (db w)) (chunks (db w)) (transactions_table (db w))
                      (<[node_id nodeInfo := node_row now nodeInfo]> (nodes (db w))))
             (console w) (detached w) (S (statements w)),
     Ok (bool_decide (nodes (db w) !! node_id nodeInfo = None))).
Proof.
  intros Hok. unfold node_telemetry, Node_upsert, mbind, M_bind, issue_statement.
  by rewrite Hok.
Qed.

Lemma deliver_snoc env reports report w :
  deliver env (reports ++ [report]) w
  = fst (node_telemetry env (fst report) (snd report) (deliver env reports w)).
Proof. unfold deliver. by rewrite foldl_snoc. Qed.

(** X15: on a healthy database, after any sequence of telemetry reports
    the Node table holds, for every node, the row of the last report of
    that node (with the clock reading of that report), or what it held
    before when the node sent none; the Block, Chunk and Transaction
    tables are as they were. *)
Theorem node_telemetry_last_report_wins (env : Env) (reports : list (Z * NodeInfo))
    (w : World) (id : string) :
  healthy env ->
  let w' := deliver env reports w in
  nodes (db w') !! id
  = match last (reports_of id reports) with
    | Some report => Some (node_row (fst report) (snd report))
    | None => nodes (db w) !! id
    end
  /\ blocks (db w') = blocks (db w)
  /\ chunks (db w') = chunks (db w)
  /\ transactions_table (db w') = transactions_table (db w).
Proof.
  intros Hh. cbn zeta. induction reports as [|report reports IH] using rev_ind; [done|].
  rewrite deliver_snoc, node_telemetry_healthy by apply Hh.
  cbn [fst db nodes blocks chunks transactions_table].
  destruct IH as (IHn & -> & -> & ->). split; [|done].
  unfold reports_of in *. rewrite filter_app, filter_cons, filter_nil.
  destruct (decide (node_id (snd report) = id)) as [<-|Hne].
  - by rewrite last_snoc, lookup_insert_eq.
  - by rewrite app_nil_r, lookup_insert_ne.
Qed.

Lemma node_telemetry_last_report_wins_witness :
  nodes (db (deliver (Sample.env true)
               [(1570000000000, Sample.report); (1570000060000, Sample.report)]
               empty_world))
    !! "ed25519:7PGseFbWxvYVgZ89K1uTJKYoKetWs7BJtbyXDzfbAcqX"
  = Some (node_row 1570000060000 Sample.report).
Proof.
  refine (proj1 (node_telemetry_last_report_wins (Sample.env true)
                   [(1570000000000, Sample.report); (1570000060000, Sample.report)]
                   empty_world "ed25519:7PGseFbWxvYVgZ89K1uTJKYoKetWs7BJtbyXDzfbAcqX" _)).
  intros n. reflexivity.
Defined.

(** X16: the [ip_address] a client puts in the body of its report has no
    effect: two requests that differ at most in that field of the body
    make the handler call the bus with the same arguments and send the
    same response. *)
Theorem handler_ignores_body_address {Network Timing Failure : Type}
    (getNearNetworkName : gmap string string -> js string -> Failure + Network)
    (getFetcher : Network -> string -> list (gmap string JsValue) -> Failure + Timing)
    (req : HttpRequest) (b : gmap string JsValue) :
  delete "ip_address" b = delete "ip_address" (body req) ->
  handler getNearNetworkName getFetcher (with_body req b)
  = handler getNearNetworkName getFetcher req.
Proof.
  intros Hb.
  assert (Hp : telemetry_payload (with_body req b) = telemetry_payload req).
  { unfold telemetry_payload. cbn.
    rewrite <- (insert_delete_eq b), <- (insert_delete_eq (body req)).
    by rewrite Hb. }
  unfold handler. by rewrite Hp.
Qed.

Lemma handler_ignores_body_address_witness :
  handler Sample.network_of Sample.bus_up
    (with_body (Sample.post (Val "203.0.113.7") None)
       (<["ip_address" := JString "198.51.100.1"]>
          (body (Sample.post (Val "203.0.113.7") None))))
  = handler Sample.network_of Sample.bus_up (Sample.post (Val "203.0.113.7") None).
Proof.
  apply (handler_ignores_body_address Sample.network_of Sample.bus_up
           (Sample.post (Val "203.0.113.7") None)).
  apply delete_insert_eq.
Defined.

(* ===================================================================== *)
(** * The connection to the bus                                           *)
(* ===================================================================== *)

(** X17: the loop of [wamp.onopen] registers the handlers in order and
    stops at the first one the router refuses: either all are registered
    and nothing else happens, or the handlers before the refused one are
    registered, the error is printed, the connection is closed and a
    single timer reopens it after 1000 ms, no later handler being tried. *)
Theorem register_handlers_stops_at_first_refusal {E : Type}
    (register : string -> option E) (names : list string) :
  (Forall (fun name => register (uri_of name) = None) names
   /\ register_handlers register names = (fun name => Registered (uri_of name)) <$> names)
  \/ exists accepted name error rest,
       names = accepted ++ name :: rest
       /\ Forall (fun name => register (uri_of name) = None) accepted
       /\ register (uri_of name) = Some error
       /\ register_handlers register names
          = ((fun name => Registered (uri_of name)) <$> accepted)
            ++ [LogRegisterFailed (uri_of name) error; Close; ReopenAfter 1000].
Proof.
  induction names as [|name names IH]; [left; by split|].
  cbn [register_handlers]. destruct (register (uri_of name)) as [error|] eqn:Hreg.
  { right. exists [], name, error, names. by repeat split. }
  destruct IH as [[Hall ->]|(accepted & name' & error & rest & -> & Hall & Hreg' & ->)].
  - left. split; [by constructor|done].
  - right. exists (name :: accepted), name', error, rest.
    split; [done|]. split; [by constructor|]. by split.
Qed.
